(** * Edmond_API: the eCFR fetch / aggregate / publish pipeline

    A shallow embedding of [app/fetcher.py] (the fetch cycle and the
    aggregator), of the read accessors and the start-up of [app/main.py]
    and of [app/scheduler.py], with the properties the specification states
    about them and further properties of the code. *)

From Stdlib Require Import ZArith List String Ascii Bool Lia Floats QArith Qabs.
From Stdlib Require Import DecimalString DecimalPos DecimalZ Permutation Sorted.
#[local] Set Warnings "-register-all,-inexact-float".
Import ListNotations.
Open Scope Z_scope.

(** ** Python floats

    A Python [float] is an IEEE-754 binary64 number: Rocq's primitive
    [float].  Addition and comparison are the primitive ones.  What Python
    adds on top, [round(x, 2)] and the true division of two integers, is
    written out below on the exact value of the operand. *)

Module PyFloat.

(** Nearest integer to [n / d] ([0 <= n], [0 < d]), ties to the even one. *)
Definition div_rhe (n d : Z) : Z :=
  let q := n / d in
  match 2 * (n mod d) ?= d with
  | Lt => q
  | Gt => q + 1
  | Eq => if Z.even q then q else q + 1
  end.

(** The binary64 number nearest to [n / d] ([0 <= n], [0 < d]) with sign [s],
    ties to even: what [strtod] and the integer true division return.
    All magnitudes are counted in units of [2^-1074], the smallest positive
    binary64 number: [t] is the position of the leading bit of [n / d] in
    these units, [g] the exponent of the result counted from [-1074], and [m]
    its 53-bit mantissa. *)
Definition nearest_binary64 (s : bool) (n d : Z) : spec_float :=
  if n =? 0 then S754_zero s else
  let t := Z.log2 (n * 2 ^ 1074 / d) in
  let g := Z.max (t - 52) 0 in
  let m := div_rhe (n * 2 ^ 1074) (d * 2 ^ g) in
  let '(m', g') := if m =? 2 ^ 53 then (2 ^ 52, g + 1) else (m, g) in
  if 2045 <? g' then S754_infinity s else
  match m' with
  | Zpos p => S754_finite s p (g' - 1074)
  | _ => S754_zero s
  end.

(** The number of hundredths nearest to [m * 2^e], [-1074 <= e] (the decimal
    digits that [round] asks of the float-to-decimal conversion). *)
Definition hundredths (m : positive) (e : Z) : Z :=
  div_rhe (100 * (Zpos m * 2 ^ (e + 1074))) (2 ^ 1074).

(** [round(x, 2)]: the float nearest to the two-decimal number nearest to
    [x], both roundings to nearest with ties to even, the first on the exact
    value of [x]; zeros, infinities and NaN round to themselves. *)
Definition round2 (x : float) : float :=
  match Prim2SF x with
  | S754_finite s m e => SF2Prim (nearest_binary64 s (hundredths m e) 100)
  | _ => x
  end.

(** [a / b] on two Python ints, [0 < b]. *)
Definition int_truediv (a b : Z) : float :=
  SF2Prim (nearest_binary64 (a <? 0) (Z.abs a) b).

(** A Python int as a float operand (exact below [2^53]). *)
Definition of_int (a : Z) : float := int_truediv a 1.

End PyFloat.

Import PyFloat.

(** ** Values, exceptions, the world *)

(** A parsed JSON document.  Python's [None] is [JNull]. *)
Inductive json : Type :=
| JNull
| JBool (b : bool)
| JInt (z : Z)
| JFloat (x : float)
| JStr (s : string)
| JArr (items : list json)
| JObj (members : list (string * json)).

(** The exceptions the fetcher can meet; all derive from [Exception]. *)
Inductive exn : Type :=
| TimeoutError
| ClientError
| JSONDecodeError
| UnicodeDecodeError
| AttributeError
| OSError
| ZeroDivisionError
| HTTPException (status_code : Z).

Inductive result (A : Type) : Type :=
| Ok (a : A)
| Raise (e : exn).
Arguments Ok {A} a.
Arguments Raise {A} e.

(** [datetime.utcnow()] readings, in microseconds since the epoch; the
    [isoformat() + "Z"] rendering of a reading is kept as the reading. *)
Definition datetime := Z.

(** [str(n)] for a Python int. *)
Definition str (n : Z) : string := DecimalString.NilZero.string_of_int (Z.to_int n).

(** An insertion-ordered [dict] with string keys. *)
Module Dict.
Section Dict.
Context {V : Type}.
Definition t := list (string * V).

Fixpoint get (k : string) (d : t) : option V :=
  match d with
  | [] => None
  | (k', v) :: d' => if String.eqb k k' then Some v else get k d'
  end.

Definition contains (k : string) (d : t) : bool :=
  match get k d with Some _ => true | None => false end.

(** [d[k] = v]: in place when [k] is a key, appended otherwise. *)
Fixpoint set (k : string) (v : V) (d : t) : t :=
  match d with
  | [] => [(k, v)]
  | (k', v') :: d' => if String.eqb k k' then (k', v) :: d' else (k', v') :: set k v d'
  end.

(** Mutation of the object stored under [k] (a key of [d]). *)
Fixpoint update (k : string) (f : V -> V) (d : t) : t :=
  match d with
  | [] => []
  | (k', v') :: d' => if String.eqb k k' then (k', f v') :: d' else (k', v') :: update k f d'
  end.

Definition keys (d : t) : list string := map fst d.
End Dict.
Arguments t V : clear implicits.
End Dict.

(** ** The aggregator: [map_titles_to_agencies] *)

(** What [fetch_title_content] returns on success.  [title_name] is whatever
    the document holds under ["title"]; a key that is absent reads as [JNull]
    through [.get]. *)
Record title_content := {
  title_number : Z;
  title_name : json;
  size_mb : float;
  size_bytes : Z
}.

Record agency_info := { info_name : string; info_code : string }.

Definition info (n c : string) : agency_info := {| info_name := n; info_code := c |}.

Definition title_agency_map : list (Z * agency_info) :=
  [ (1, info "General Provisions" "GEN");
    (2, info "Grants and Agreements" "GRANTS");
    (3, info "The President" "POTUS");
    (4, info "Accounts" "GAO");
    (5, info "Administrative Personnel" "OPM");
    (6, info "Domestic Security" "DHS");
    (7, info "Agriculture" "USDA");
    (8, info "Aliens and Nationality" "USCIS");
    (9, info "Animals and Animal Products" "APHIS");
    (10, info "Energy" "DOE");
    (11, info "Federal Elections" "FEC");
    (12, info "Banks and Banking" "FRB");
    (13, info "Business Credit and Assistance" "SBA");
    (14, info "Aeronautics and Space" "FAA");
    (15, info "Commerce and Foreign Trade" "DOC");
    (16, info "Commercial Practices" "FTC");
    (17, info "Commodity and Securities Exchanges" "SEC");
    (18, info "Conservation of Power and Water Resources" "FERC");
    (19, info "Customs Duties" "CBP");
    (20, info "Employees' Benefits" "DOL");
    (21, info "Food and Drugs" "FDA");
    (22, info "Foreign Relations" "STATE");
    (23, info "Highways" "FHWA");
    (24, info "Housing and Urban Development" "HUD");
    (25, info "Indians" "BIA");
    (26, info "Internal Revenue" "IRS");
    (27, info "Alcohol, Tobacco and Firearms" "ATF");
    (28, info "Judicial Administration" "DOJ");
    (29, info "Labor" "DOL");
    (30, info "Mineral Resources" "DOI");
    (31, info "Money and Finance: Treasury" "TREAS");
    (32, info "National Defense" "DOD");
    (33, info "Navigation and Navigable Waters" "USCG");
    (34, info "Education" "ED");
    (36, info "Parks, Forests, and Public Property" "NPS");
    (37, info "Patents, Trademarks, and Copyrights" "USPTO");
    (38, info "Pensions, Bonuses, and Veterans' Relief" "VA");
    (39, info "Postal Service" "USPS");
    (40, info "Protection of Environment" "EPA");
    (41, info "Public Contracts and Property Management" "GSA");
    (42, info "Public Health" "HHS");
    (43, info "Public Lands: Interior" "BLM");
    (44, info "Emergency Management and Assistance" "FEMA");
    (45, info "Public Welfare" "HHS");
    (46, info "Shipping" "MARAD");
    (47, info "Telecommunication" "FCC");
    (48, info "Federal Acquisition Regulations System" "FAR");
    (49, info "Transportation" "DOT");
    (50, info "Wildlife and Fisheries" "FWS") ].

(** [title_agency_map.get(title_num)] *)
Fixpoint lookup_title (n : Z) (m : list (Z * agency_info)) : option agency_info :=
  match m with
  | [] => None
  | (k, i) :: m' => if n =? k then Some i else lookup_title n m'
  end.

(** The fallback identity of a title the table does not list. *)
Definition fallback_info (n : Z) : agency_info :=
  {| info_name := ("Title " ++ str n ++ " Agency")%string;
     info_code := ("T" ++ str n)%string |}.

(** [title_agency_map.get(title_num, {...})] *)
Definition agency_of_title (n : Z) : agency_info :=
  match lookup_title n title_agency_map with
  | Some i => i
  | None => fallback_info n
  end.

(** One element of an agency's [titles] list. *)
Record title_entry := {
  te_title_number : Z;
  te_title_name : json;
  te_size_mb : float
}.

Definition entry_of (tc : title_content) : title_entry :=
  {| te_title_number := title_number tc;
     te_title_name := title_name tc;
     te_size_mb := size_mb tc |}.

(** An agency object while the first loop runs: no [last_updated] yet. *)
Record agency_acc := {
  acc_name : string;
  acc_code : string;
  acc_regulation_size_mb : float;
  acc_titles : list title_entry
}.

(** An agency object as returned. *)
Record agency := {
  name : string;
  code : string;
  regulation_size_mb : float;
  titles : list title_entry;
  last_updated : datetime
}.

(** The two in-place mutations of the first loop's body. *)
Definition credit (tc : title_content) (a : agency_acc) : agency_acc :=
  {| acc_name := acc_name a;
     acc_code := acc_code a;
     acc_regulation_size_mb := (acc_regulation_size_mb a + size_mb tc)%float;
     acc_titles := acc_titles a ++ [entry_of tc] |}.

(** One iteration of the first loop. *)
Definition add_title (agency_data : Dict.t agency_acc) (tc : title_content)
  : Dict.t agency_acc :=
  let agency_info := agency_of_title (title_number tc) in
  let agency_code := info_code agency_info in
  let agency_data :=
    if Dict.contains agency_code agency_data then agency_data
    else Dict.set agency_code
           {| acc_name := info_name agency_info;
              acc_code := agency_code;
              acc_regulation_size_mb := 0.0%float;
              acc_titles := [] |} agency_data in
  Dict.update agency_code (credit tc) agency_data.

Definition aggregate (title_contents : list title_content) : Dict.t agency_acc :=
  fold_left add_title title_contents [].

(** ** The world the fetcher runs in *)

(** The document written at the end of a cycle ([final_data]). *)
Record snapshot := {
  agencies : list agency;
  total_agencies : Z;
  total_size_mb : float;
  last_sync : datetime;
  fetch_duration_seconds : float
}.

(** A file holds a whole JSON document or what an interrupted [json.dump]
    left of it. *)
Inductive file : Type :=
| Whole (doc : snapshot)
| Truncated (doc : snapshot).

(** [DATA_FILE] and [TEMP_FILE]; [None] when the path does not exist. *)
Record filesystem := {
  data_file : option file;
  temp_file : option file
}.

(** A title object of the listing, with the integer it holds under
    ["number"]; [.get("number")] is [None] when the key is absent or holds
    [null]. *)
Record title := {
  number : option Z;
  listed_name : string
}.

(** An element of the [titles] member, as the fan-out meets it when it
    iterates: a title object, or any other JSON value, which has no
    [.get].  (A [titles] member that is a string or an object iterates as
    its characters or its keys, none of which is an object; one without a
    length makes [len(titles)] raise inside [fetch_title_structure].) *)
Inductive entry : Type :=
| Object (t : title)
| NotAnObject.

(** What one request meets: [session.get] raises, or a response arrives with
    its status and what reading its body gives. *)
Definition response (A : Type) : Type := result (Z * result A).

(** Which operating-system calls of the cycle fail with [OSError]. *)
Record os_faults := {
  makedirs_fails : bool;
  open_fails : bool;
  dump_fails : bool;
  replace_fails : bool;
  remove_fails : bool
}.

(** Everything outside the program: the clock ([clock k] is the [k]-th
    reading of [utcnow()]), the remote API (the [titles] member of the
    decoded listing, or what obtaining it raised; the body of the [i]-th
    content request, for title [n]), the JSON decoder and the behaviour of
    the file system calls. *)
Record env := {
  clock : nat -> datetime;
  titles_endpoint : response (list entry);
  content_endpoint : nat -> Z -> response (list Byte.byte);
  json_loads : list Byte.byte -> result json;
  faults : os_faults
}.

Record state := {
  fs : filesystem;
  ticks : nat
}.

(** Computations read the environment, change the state and may raise. *)
Definition M (A : Type) : Type := env -> state -> result A * state.

Definition ret {A} (a : A) : M A := fun _ s => (Ok a, s).

Definition bind {A B} (m : M A) (k : A -> M B) : M B :=
  fun e s =>
    match m e s with
    | (Ok a, s') => k a e s'
    | (Raise x, s') => (Raise x, s')
    end.

Definition raise {A} (x : exn) : M A := fun _ s => (Raise x, s).

Definition lift {A} (r : result A) : M A := fun _ s => (r, s).

Definition ask : M env := fun e s => (Ok e, s).

Notation "x <- m ;; k" := (bind m (fun x => k))
  (at level 61, m at next level, right associativity).
Notation "m ;;; k" := (bind m (fun _ => k))
  (at level 61, right associativity).

(** [try: body  except <matching>: handler] *)
Definition try_except {A} (body : M A) (matching : exn -> bool) (handler : exn -> M A)
  : M A :=
  fun e s =>
    match body e s with
    | (Raise x, s') => if matching x then handler x e s' else (Raise x, s')
    | r => r
    end.

(** [except Exception] *)
Definition any_exception (_ : exn) : bool := true.

(** [datetime.utcnow()] *)
Definition utcnow : M datetime :=
  fun e s => (Ok (clock e (ticks s)), {| fs := fs s; ticks := S (ticks s) |}).

(** ** The second loop and the sort *)

(** [for code, data in agency_data.items()]: round, stamp, append. *)
Fixpoint finalize (items : list (string * agency_acc)) : M (list agency) :=
  match items with
  | [] => ret []
  | (_, data) :: rest =>
      let size := round2 (acc_regulation_size_mb data) in
      now <- utcnow ;;
      rest' <- finalize rest ;;
      ret ({| name := acc_name data;
              code := acc_code data;
              regulation_size_mb := size;
              titles := acc_titles data;
              last_updated := now |} :: rest')
  end.

(** [list.sort]: a stable sort that only asks [x < y] of its elements' keys.
    Each element in turn goes behind the ones it is not smaller than. *)
Section Sort.
Context {A : Type} (key : A -> float).

Fixpoint insert (x : A) (sorted : list A) : list A :=
  match sorted with
  | [] => [x]
  | y :: sorted' =>
      if (key x <? key y)%float then x :: sorted else y :: insert x sorted'
  end.

Definition sort (l : list A) : list A :=
  fold_left (fun sorted x => insert x sorted) l [].

(** [l.sort(key=key, reverse=True)]: reverse, sort, reverse, which keeps
    elements with equal keys in their original order. *)
Definition sort_reverse (l : list A) : list A := rev (sort (rev l)).
End Sort.

Definition map_titles_to_agencies (title_contents : list title_content)
  : M (list agency) :=
  let agency_data := aggregate title_contents in
  agencies <- finalize agency_data ;;
  ret (sort_reverse regulation_size_mb agencies).

(** ** The remote catalogue: listing and content *)

(** [fetch_title_structure]: the listing, or [[]] on any failure. *)
Definition fetch_title_structure : M (list entry) :=
  try_except
    (e <- ask ;;
     resp <- lift (titles_endpoint e) ;;
     let '(status, body) := resp in
     if negb (status =? 200) then ret []
     else
       titles <- lift body ;;
       ret titles)
    any_exception
    (fun x => match x with
              | TimeoutError => ret []
              | _ => ret []
              end).

(** [data.get(key, default)]: only a JSON object has [.get]. *)
Fixpoint member (key : string) (members : list (string * json)) : option json :=
  match members with
  | [] => None
  | (k, v) :: members' => if String.eqb key k then Some v else member key members'
  end.

Definition json_get (data : json) (key : string) (default : json) : result json :=
  match data with
  | JObj members =>
      match member key members with
      | Some v => Ok v
      | None => Ok default
      end
  | _ => Raise AttributeError
  end.

Definition is_json_decode_error (x : exn) : bool :=
  match x with JSONDecodeError => true | _ => false end.

(** [fetch_title_content(title_number, session)], as the [i]-th request of
    the fan-out.  The URL carries the current date, hence the clock reading. *)
Definition fetch_title_content (title_number : Z) (i : nat) : M (option title_content) :=
  _today <- utcnow ;;
  try_except
    (e <- ask ;;
     resp <- lift (content_endpoint e i title_number) ;;
     let '(status, body) := resp in
     if negb (status =? 200) then ret None
     else
       content <- lift body ;;
       let size_bytes := Z.of_nat (List.length content) in
       let size_mb := int_truediv size_bytes (1024 * 1024) in
       try_except
         (data <- lift (json_loads e content) ;;
          title_name <- lift (json_get data "title"
                                (JStr ("Title " ++ str title_number))) ;;
          ret (Some {| title_number := title_number;
                       title_name := title_name;
                       size_mb := round2 size_mb;
                       size_bytes := size_bytes |}))
         is_json_decode_error
         (fun _ => ret None))
    any_exception
    (fun x => match x with
              | TimeoutError => ret None
              | _ => ret None
              end).

(** [asyncio.gather] over the tasks, with [return_exceptions=True]: every task runs, and
    what it returns or raises is kept at its position.  The tasks are run in
    task order: the outcome of each depends on its own request only. *)
Definition attempt {A} (m : M A) : M (result A) :=
  fun e s => let '(r, s') := m e s in (Ok r, s').

Fixpoint gather (i : nat) (numbers : list Z) : M (list (result (option title_content))) :=
  match numbers with
  | [] => ret []
  | n :: rest =>
      r <- attempt (fetch_title_content n i) ;;
      rs <- gather (S i) rest ;;
      ret (r :: rs)
  end.

(** [title.get("number")] *)
Definition get_number (title : entry) : result (option Z) :=
  match title with
  | Object t => Ok (number t)
  | NotAnObject => Raise AttributeError
  end.

(** The loop that creates the tasks.  [if title_number:] holds for a number
    that is present and not [0]; an entry without [.get] ends the loop, and
    the function, with [AttributeError]. *)
Fixpoint task_numbers (titles : list entry) (tasks : list Z) : result (list Z) :=
  match titles with
  | [] => Ok tasks
  | title :: titles' =>
      match get_number title with
      | Raise x => Raise x
      | Ok (Some n) => task_numbers titles' (if n =? 0 then tasks else tasks ++ [n])
      | Ok None => task_numbers titles' tasks
      end
  end.

(** The filter after [gather]: exceptions and [None] are left out. *)
Definition successes (results : list (result (option title_content)))
  : list title_content :=
  flat_map (fun r => match r with
                     | Ok (Some tc) => [tc]
                     | _ => []
                     end) results.

Definition fetch_all_title_contents (titles : list entry) : M (list title_content) :=
  tasks <- lift (task_numbers titles []) ;;
  results <- gather 0 tasks ;;
  ret (successes results).

(** ** The snapshot store: the two paths and the calls on them *)

Definition modify_fs (f : filesystem -> filesystem) : M unit :=
  fun _ s => (Ok tt, {| fs := f (fs s); ticks := ticks s |}).

Definition get_fs : M filesystem := fun _ s => (Ok (fs s), s).

Definition os_call (fails : os_faults -> bool) : M unit :=
  e <- ask ;;
  if fails (faults e) then raise OSError else ret tt.

(** [os.makedirs("data", exist_ok=True)] *)
Definition makedirs : M unit := os_call makedirs_fails.

(** [with open(TEMP_FILE, 'w') as f: json.dump(final_data, f, indent=2)] *)
Definition write_temp (final_data : snapshot) : M unit :=
  os_call open_fails ;;;
  e <- ask ;;
  if dump_fails (faults e) then
    modify_fs (fun f => {| data_file := data_file f;
                           temp_file := Some (Truncated final_data) |}) ;;;
    raise OSError
  else
    modify_fs (fun f => {| data_file := data_file f;
                           temp_file := Some (Whole final_data) |}).

(** [os.replace(TEMP_FILE, DATA_FILE)] *)
Definition replace_temp : M unit :=
  os_call replace_fails ;;;
  f <- get_fs ;;
  match temp_file f with
  | None => raise OSError
  | Some doc => modify_fs (fun f => {| data_file := Some doc; temp_file := None |})
  end.

(** [os.path.exists(TEMP_FILE)] *)
Definition temp_exists : M bool :=
  f <- get_fs ;;
  ret (match temp_file f with Some _ => true | None => false end).

(** [os.remove(TEMP_FILE)] *)
Definition remove_temp : M unit :=
  os_call remove_fails ;;;
  modify_fs (fun f => {| data_file := data_file f; temp_file := None |}).

(** ** The fetch cycle: [fetch_and_update_data] *)

(** [sum(...)] over floats: the additions from the left, each rounded, as
    [+=] does them (recent interpreters compensate the rounding errors of
    the additions inside [sum], which moves the last bits only). *)
Definition py_sum (l : list float) : float :=
  fold_left (fun acc x => (acc + x)%float) l 0.0%float.

Definition final_data_of (agencies : list agency) (last_sync : datetime)
  (elapsed : Z) : snapshot :=
  let total_size_mb := py_sum (map regulation_size_mb agencies) in
  {| agencies := agencies;
     total_agencies := Z.of_nat (List.length agencies);
     total_size_mb := round2 total_size_mb;
     last_sync := last_sync;
     fetch_duration_seconds := int_truediv elapsed 1000000 |}.

Definition is_empty {A} (l : list A) : bool :=
  match l with [] => true | _ => false end.

Definition fetch_and_update_data : M unit :=
  start_time <- utcnow ;;
  try_except
    (titles <- fetch_title_structure ;;
     if is_empty titles then ret tt
     else
       title_contents <- fetch_all_title_contents titles ;;
       if is_empty title_contents then ret tt
       else
         agencies <- map_titles_to_agencies title_contents ;;
         last_sync <- utcnow ;;
         finish <- utcnow ;;
         let final_data := final_data_of agencies last_sync (finish - start_time) in
         makedirs ;;;
         write_temp final_data ;;;
         replace_temp)
    any_exception
    (fun _ =>
       present <- temp_exists ;;
       if present then
         try_except remove_temp any_exception (fun _ => ret tt)
       else ret tt).

(** ** The statistics accessor of [main.py] *)

(** [load_data]: the document at [DATA_FILE], or [None] when the path is
    missing or does not parse. *)
Definition load_data : M (option snapshot) :=
  f <- get_fs ;;
  ret (match data_file f with
       | Some (Whole doc) => Some doc
       | _ => None
       end).

(** A JSON number that is an [int] or a [float] in Python. *)
Inductive number_value : Type :=
| Int (z : Z)
| Float (x : float).

Record statistics := {
  stat_total_agencies : Z;
  stat_total_size_mb : float;
  largest_agency : option agency;
  smallest_agency : option agency;
  average_size_mb : number_value;
  stat_last_sync : datetime
}.

(** [max(l, key=key)] and [min(l, key=key)]: the first extremal element. *)
Section Extrema.
Context {A : Type} (key : A -> float).

Fixpoint max_from (best : A) (l : list A) : A :=
  match l with
  | [] => best
  | x :: l' => max_from (if (key best <? key x)%float then x else best) l'
  end.

Fixpoint min_from (best : A) (l : list A) : A :=
  match l with
  | [] => best
  | x :: l' => min_from (if (key x <? key best)%float then x else best) l'
  end.
End Extrema.

(** [x / y] on floats raises when the divisor is zero. *)
Definition float_truediv (x y : float) : result float :=
  if (y =? 0)%float then Raise ZeroDivisionError else Ok (x / y)%float.

Definition get_statistics : M statistics :=
  data <- load_data ;;
  match data with
  | None => raise (HTTPException 503)
  | Some data =>
      let agencies := agencies data in
      let count := Z.of_nat (List.length agencies) in
      average <-
        match agencies with
        | [] => ret (Int 0)
        | _ =>
            quotient <- lift (float_truediv (total_size_mb data) (of_int count)) ;;
            ret (Float (round2 quotient))
        end ;;
      ret {| stat_total_agencies := count;
             stat_total_size_mb := total_size_mb data;
             largest_agency :=
               match agencies with
               | [] => None
               | a :: rest => Some (max_from regulation_size_mb a rest)
               end;
             smallest_agency :=
               match agencies with
               | [] => None
               | a :: rest => Some (min_from regulation_size_mb a rest)
               end;
             average_size_mb := average;
             stat_last_sync := last_sync data |}
  end.

(** ** Vocabulary of the statements *)

(** The magnitude of a finite binary64 number in units of [2^-1074] (an
    integer), and its value as a rational number. *)
Definition magnitude (x : spec_float) : Z :=
  match x with
  | S754_finite _ m e => Zpos m * 2 ^ (e + 1074)
  | _ => 0
  end.

Definition SFfinite (x : spec_float) : bool :=
  match x with
  | S754_zero _ | S754_finite _ _ _ => true
  | _ => false
  end.

Definition SFsign (x : spec_float) : bool :=
  match x with
  | S754_zero s | S754_infinity s | S754_finite s _ _ => s
  | S754_nan => false
  end.

Definition SFvalue (x : spec_float) : option Q :=
  if SFfinite x then
    Some (Qmake (if SFsign x then - magnitude x else magnitude x) (2 ^ 1074))
  else None.

Definition value (x : float) : option Q := SFvalue (Prim2SF x).

(** [a] is [b] within one hundredth.  An infinity or a NaN, which has no
    value to measure a distance from, is within a hundredth of itself only. *)
Definition within_a_cent (a b : float) : Prop :=
  match value a, value b with
  | Some va, Some vb => (Qabs (va - vb) <= 1 # 100)%Q
  | _, _ => a = b
  end.

(** A title object, and the numbers the fan-out makes requests for: those of
    the title objects that have one other than [0], in listing order. *)
Definition is_object (title : entry) : bool :=
  match title with Object _ => true | NotAnObject => false end.

Definition listed_numbers (titles : list entry) : list Z :=
  flat_map (fun title => match title with
                         | Object t =>
                             match number t with
                             | Some n => if n =? 0 then [] else [n]
                             | None => []
                             end
                         | NotAnObject => []
                         end) titles.

(** The state after one more clock reading, and after [k] of them. *)
Definition tick (s : state) : state := {| fs := fs s; ticks := S (ticks s) |}.

Definition advance (k : nat) (s : state) : state :=
  {| fs := fs s; ticks := (k + ticks s)%nat |}.

(** The agency objects of the second loop when the clock readings start at
    the [k]-th one. *)
Fixpoint stamped (now : nat -> datetime) (k : nat) (items : list (string * agency_acc))
  : list agency :=
  match items with
  | [] => []
  | (_, data) :: rest =>
      {| name := acc_name data;
         code := acc_code data;
         regulation_size_mb := round2 (acc_regulation_size_mb data);
         titles := acc_titles data;
         last_updated := now k |} :: stamped now (S k) rest
  end.

(** Some step of writing or publishing the snapshot fails. *)
Definition publish_fails (f : os_faults) : bool :=
  makedirs_fails f || open_fails f || dump_fails f || replace_fails f.

(** The file system after a publication that went through. *)
Definition published (doc : snapshot) : filesystem :=
  {| data_file := Some (Whole doc); temp_file := None |}.

(** The document a cycle builds from the fetched contents [tcs], when the
    cycle started at clock reading [start] and the aggregator runs from
    reading [k] on. *)
Definition snapshot_of_cycle (e : env) (start k : nat) (tcs : list title_content)
  : snapshot :=
  let n := List.length (aggregate tcs) in
  final_data_of
    (sort_reverse regulation_size_mb (stamped (clock e) k (aggregate tcs)))
    (clock e (n + k)%nat)
    (clock e (S (n + k)) - clock e start).

(** What is at the temporary path when publication has failed, before the
    cleanup. *)
Definition temp_after_failure (f : os_faults) (before : option file) (doc : snapshot)
  : option file :=
  if makedirs_fails f || open_fails f then before
  else if dump_fails f then Some (Truncated doc)
  else Some (Whole doc).

(** The cleanup of the [except] clause, on what is at the temporary path. *)
Definition temp_after_cleanup (f : os_faults) (temp : option file) : option file :=
  match temp with
  | Some doc => if remove_fails f then Some doc else None
  | None => None
  end.

(** ** Sample worlds *)

Module Sample.
Definition epa : entry :=
  Object {| number := Some 40; listed_name := "Protection of Environment" |}.
Definition dod : entry :=
  Object {| number := Some 32; listed_name := "National Defense" |}.

(** The two bytes of the document [{}], and a decoder that knows it. *)
Definition body : list Byte.byte := [Byte.x7b; Byte.x7d].
Definition decoder (content : list Byte.byte) : result json :=
  match content with
  | [Byte.x7b; Byte.x7d] => Ok (JObj [])
  | _ => Raise JSONDecodeError
  end.

(** A clock that advances by one microsecond per reading. *)
Definition ticking (k : nat) : datetime := Z.of_nat k.

Definition no_faults : os_faults :=
  {| makedirs_fails := false; open_fails := false; dump_fails := false;
     replace_fails := false; remove_fails := false |}.

(** The disk fills up during [json.dump] and the file cannot be removed. *)
Definition stuck_temp : os_faults :=
  {| makedirs_fails := false; open_fails := false; dump_fails := true;
     replace_fails := false; remove_fails := true |}.

(** The rename fails; the removal works. *)
Definition failed_rename : os_faults :=
  {| makedirs_fails := false; open_fails := false; dump_fails := false;
     replace_fails := true; remove_fails := false |}.

Definition world (listing : response (list entry)) (f : os_faults) : env :=
  {| clock := ticking;
     titles_endpoint := listing;
     content_endpoint := fun _ _ => Ok (200, Ok body);
     json_loads := decoder;
     faults := f |}.

Definition healthy : env := world (Ok (200, Ok [epa; dod])) no_faults.
Definition unlisted : env := world (Ok (500, Ok [])) no_faults.

Definition fresh : state :=
  {| fs := {| data_file := None; temp_file := None |}; ticks := 0 |}.
End Sample.

(** The agency code a fetched title is filed under. *)
Definition code_of (tc : title_content) : string :=
  info_code (agency_of_title (title_number tc)).

(** The codes of a sequence in the order of their first occurrence. *)
Definition discover (seen : list string) (c : string) : list string :=
  if existsb (String.eqb c) seen then seen else seen ++ [c].

Definition discovered (codes : list string) : list string :=
  fold_left discover codes [].

(** The inputs filed under code [k], in input order, and the agency object
    they add up to. *)
Definition members (k : string) (tcs : list title_content) : list title_content :=
  filter (fun tc => String.eqb (code_of tc) k) tcs.

Definition group (k : string) (tcs : list title_content) : agency_acc :=
  {| acc_name :=
       match members k tcs with
       | tc :: _ => info_name (agency_of_title (title_number tc))
       | [] => EmptyString
       end;
     acc_code := k;
     acc_regulation_size_mb := py_sum (map size_mb (members k tcs));
     acc_titles := map entry_of (members k tcs) |}.

(** ** The other read accessors of [main.py] *)

(** [GET /api/agencies]: the stored document, or 503. *)
Definition get_agencies : M snapshot :=
  data <- load_data ;;
  match data with
  | None => raise (HTTPException 503)
  | Some data => ret data
  end.

(** [GET /health] *)
Record health := {
  health_status : string;
  health_version : string;
  last_data_update : option datetime;
  health_timestamp : datetime
}.

Definition health_check : M health :=
  data <- load_data ;;
  now <- utcnow ;;
  ret {| health_status :=
           match data with Some _ => "healthy" | None => "degraded" end;
         health_version := "1.0.0";
         last_data_update := option_map last_sync data;
         health_timestamp := now |}.

(** A string is kept as its UTF-8 bytes.  What [str.upper()] does to ASCII
    text: the letters [a]..[z] go to [A]..[Z], every other character stays. *)
Definition upper_ascii (c : ascii) : ascii :=
  let n := nat_of_ascii c in
  if ((97 <=? n) && (n <=? 122))%nat then ascii_of_nat (n - 32) else c.

Fixpoint upper (s : string) : string :=
  match s with
  | EmptyString => EmptyString
  | String c s' => String (upper_ascii c) (upper s')
  end.

Fixpoint is_ascii (s : string) : bool :=
  match s with
  | EmptyString => true
  | String c s' => (nat_of_ascii c <? 128)%nat && is_ascii s'
  end.

(** [GET /api/agencies/{agency_code}]: the first agency whose code is the
    requested one up to case, 404 when there is none, 503 without data.
    [str_upper] is Python's [str.upper()], which follows the case mapping of
    Unicode (the upper case of a sharp s is [SS]); [upper] above is what it
    does on ASCII text, and nothing more is known of it here. *)
Section Lookup.
Variable str_upper : string -> string.

Definition get_agency (agency_code : string) : M agency :=
  data <- load_data ;;
  match data with
  | None => raise (HTTPException 503)
  | Some data =>
      match find (fun a => String.eqb (str_upper (code a)) (str_upper agency_code))
                 (agencies data) with
      | Some agency => ret agency
      | None => raise (HTTPException 404)
      end
  end.
End Lookup.

(** [f] is [str.upper()] as far as ASCII text goes. *)
Definition upper_on_ascii (f : string -> string) : Prop :=
  forall t, is_ascii t = true -> f t = upper t.

(** ** More vocabulary *)

(** A binary64 number that is not below zero (a zero of either sign, a
    positive number or the positive infinity). *)
Definition SFnonneg (x : spec_float) : bool :=
  match x with
  | S754_nan => false
  | S754_zero _ => true
  | S754_infinity s | S754_finite s _ _ => negb s
  end.

(** ** The scheduler of [scheduler.py] and the start-up of [main.py] *)

(** [CronTrigger(hour=2, minute=0)] *)
Record cron_trigger := { cron_hour : Z; cron_minute : Z }.

Record job := {
  job_id : string;
  job_name : string;
  next_run_time : option datetime;
  job_trigger : cron_trigger
}.

(** An [AsyncIOScheduler]: whether it is running, and the jobs it holds. *)
Record scheduler := {
  running : bool;
  jobs : list job
}.

(** The job [start_scheduler] adds; [next_run] is the next firing time the
    library computes when the scheduler starts. *)
Definition daily_data_update (next_run : datetime) : job :=
  {| job_id := "daily_data_update";
     job_name := "Daily eCFR data update";
     next_run_time := Some next_run;
     job_trigger := {| cron_hour := 2; cron_minute := 0 |} |}.

(** [start_scheduler()], on the global [scheduler] ([None] before the first
    start): nothing happens when a scheduler is running; otherwise a new
    scheduler is made, given the daily job and started. *)
Definition start_scheduler (next_run : datetime) (global : option scheduler)
  : option scheduler :=
  match global with
  | Some sch =>
      if running sch then global
      else Some {| running := true; jobs := [daily_data_update next_run] |}
  | None => Some {| running := true; jobs := [daily_data_update next_run] |}
  end.

(** [stop_scheduler()]: a running scheduler is shut down and dropped. *)
Definition stop_scheduler (global : option scheduler) : option scheduler :=
  match global with
  | Some sch => if running sch then None else global
  | None => None
  end.

(** [get_scheduler_status()] *)
Record scheduler_status := {
  status_running : bool;
  status_jobs : list job
}.

Definition get_scheduler_status (global : option scheduler) : scheduler_status :=
  match global with
  | Some sch =>
      if running sch then {| status_running := true; status_jobs := jobs sch |}
      else {| status_running := false; status_jobs := [] |}
  | None => {| status_running := false; status_jobs := [] |}
  end.

(** [os.path.exists(DATA_FILE)] *)
Definition data_exists : M bool :=
  f <- get_fs ;;
  ret (match data_file f with Some _ => true | None => false end).

(** The start-up half of [lifespan]: start the scheduler, and fetch once
    when there is no data file. *)
Definition startup (next_run : datetime) (global : option scheduler)
  : M (option scheduler) :=
  let global := start_scheduler next_run global in
  present <- data_exists ;;
  (if present then ret tt
   else try_except fetch_and_update_data any_exception (fun _ => ret tt)) ;;;
  ret global.

(** The shut-down half of [lifespan]. *)
Definition shutdown (global : option scheduler) : option scheduler :=
  stop_scheduler global.

(** * Properties *)

(** ** The arithmetic on a few inputs *)

Example round2_half_even_on_the_exact_value :
  round2 2.675%float = 2.67%float
  /\ round2 0.125%float = 0.12%float
  /\ round2 0.375%float = 0.38%float
  /\ round2 (0.1 + 0.2)%float = 0.3%float
  /\ round2 (-0.001)%float = (-0.0)%float
  /\ round2 1e22%float = 1e22%float.
Proof. vm_compute. repeat split. Qed.

Example size_of_a_small_body :
  int_truediv 23000 (1024 * 1024) = 0.02193450927734375%float
  /\ round2 (int_truediv 23000 (1024 * 1024)) = 0.02%float.
Proof. vm_compute. split; reflexivity. Qed.

Example str_examples :
  str 99 = "99"%string /\ str 0 = "0"%string /\ str (-5) = "-5"%string.
Proof. vm_compute. repeat split. Qed.

Example two_codes_share_an_agency :
  info_code (agency_of_title 20) = info_code (agency_of_title 29)
  /\ info_code (agency_of_title 35) = "T35"%string.
Proof. vm_compute. split; reflexivity. Qed.

(** ** The steps before publication leave the store alone and do not raise *)

Lemma utcnow_run e s : utcnow e s = (Ok (clock e (ticks s)), tick s).
Proof. reflexivity. Qed.

Lemma fetch_title_structure_run e s :
  exists titles, fetch_title_structure e s = (Ok titles, s).
Proof.
  unfold fetch_title_structure, try_except, bind, ask, lift, ret.
  destruct (titles_endpoint e) as [[status body] | x]; simpl.
  - destruct (negb (status =? 200)); simpl; [eauto |].
    destruct body as [titles | x]; simpl; [eauto |].
    destruct x; eauto.
  - destruct x; eauto.
Qed.

Lemma fetch_title_content_run n i e s :
  exists r, fetch_title_content n i e s = (Ok r, tick s).
Proof.
  unfold fetch_title_content, try_except, bind, ask, lift, ret, utcnow; simpl.
  fold (tick s).
  destruct (content_endpoint e i n) as [[status body] | x]; simpl.
  - destruct (negb (status =? 200)); simpl; [eauto |].
    destruct body as [content | x]; simpl; [| destruct x; eauto].
    destruct (json_loads e content) as [data | x]; simpl.
    + destruct (json_get data _ _) as [nm | x]; simpl; [eauto |].
      destruct x; simpl; eauto.
    + destruct x; simpl; eauto.
  - destruct x; eauto.
Qed.

Lemma gather_run numbers : forall i e s,
  exists rs s', gather i numbers e s = (Ok rs, s') /\ fs s' = fs s.
Proof.
  induction numbers as [| n rest IH]; intros i e s; simpl.
  - unfold ret; eauto.
  - unfold bind, attempt.
    destruct (fetch_title_content_run n i e s) as [r ->].
    destruct (IH (S i) e (tick s)) as (rs & s' & -> & Hfs).
    unfold ret; eauto.
Qed.

(** The loop that creates the tasks raises exactly when it meets an entry
    that is not an object. *)
Lemma task_numbers_spec titles : forall tasks,
  task_numbers titles tasks
  = if forallb is_object titles then Ok (tasks ++ listed_numbers titles)
    else Raise AttributeError.
Proof.
  induction titles as [| [t |] rest IH]; intros tasks; cbn.
  - now rewrite app_nil_r.
  - destruct (number t) as [n |]; [destruct (n =? 0) |]; rewrite IH;
      destruct (forallb is_object rest); try reflexivity.
    now rewrite <- app_assoc.
  - reflexivity.
Qed.

Lemma fetch_all_title_contents_run titles e s :
  forallb is_object titles = true ->
  exists tcs s', fetch_all_title_contents titles e s = (Ok tcs, s') /\ fs s' = fs s.
Proof.
  intros Hobj. unfold fetch_all_title_contents, bind, lift.
  rewrite task_numbers_spec, Hobj.
  destruct (gather_run ([] ++ listed_numbers titles) 0%nat e s) as (rs & s' & -> & Hfs).
  unfold ret; eauto.
Qed.

Lemma fetch_all_title_contents_raises titles e s :
  forallb is_object titles = false ->
  fetch_all_title_contents titles e s = (Raise AttributeError, s).
Proof.
  intros Hobj. unfold fetch_all_title_contents, bind, lift.
  now rewrite task_numbers_spec, Hobj.
Qed.

Lemma fetch_all_title_contents_fs titles e s :
  fs (snd (fetch_all_title_contents titles e s)) = fs s.
Proof.
  destruct (forallb is_object titles) eqn:Hobj.
  - destruct (fetch_all_title_contents_run titles e s Hobj) as (tcs & s' & -> & Hfs).
    exact Hfs.
  - now rewrite fetch_all_title_contents_raises.
Qed.

Lemma finalize_run items : forall e s,
  finalize items e s
  = (Ok (stamped (clock e) (ticks s) items), advance (List.length items) s).
Proof.
  induction items as [| [k data] rest IH]; intros e s; simpl.
  - unfold ret, advance. destruct s; reflexivity.
  - unfold bind at 1. rewrite utcnow_run. unfold bind at 1. rewrite IH.
    unfold ret, advance, tick; simpl. do 3 f_equal. lia.
Qed.

Lemma map_titles_to_agencies_run tcs e s :
  map_titles_to_agencies tcs e s
  = (Ok (sort_reverse regulation_size_mb
           (stamped (clock e) (ticks s) (aggregate tcs))),
     advance (List.length (aggregate tcs)) s).
Proof.
  unfold map_titles_to_agencies, bind. rewrite finalize_run. reflexivity.
Qed.

(** ** C1: the two aborts *)

(** C1.  A cycle whose title listing is empty, or none of whose content
    fetches succeeds, returns without raising and leaves the file system
    (the canonical snapshot and the temporary path alike) exactly as it
    found it. *)
Theorem abort_leaves_store_unchanged e s titles s1 :
  fetch_title_structure e (tick s) = (Ok titles, s1) ->
  titles = [] \/ fst (fetch_all_title_contents titles e s1) = Ok [] ->
  fst (fetch_and_update_data e s) = Ok tt
  /\ fs (snd (fetch_and_update_data e s)) = fs s.
Proof.
  intros Hlist Habort.
  destruct (fetch_title_structure_run e (tick s)) as [titles' Hrun].
  assert (s1 = tick s) as -> by congruence.
  assert (exists s', fetch_and_update_data e s = (Ok tt, s') /\ fs s' = fs s)
    as (s' & -> & Hs').
  { unfold fetch_and_update_data, bind, try_except.
    rewrite utcnow_run, Hlist.
    destruct titles as [| t titles]; cbn [is_empty].
    - unfold ret. eauto.
    - destruct Habort as [? | Hnone]; [discriminate |].
      pose proof (fetch_all_title_contents_fs (t :: titles) e (tick s)) as Hfs.
      destruct (fetch_all_title_contents (t :: titles) e (tick s)) as [r s2].
      cbn [fst snd] in Hnone, Hfs. subst r.
      cbn [is_empty]. unfold ret. eauto. }
  auto.
Qed.

Lemma abort_leaves_store_unchanged_witness :
  fst (fetch_and_update_data Sample.unlisted Sample.fresh) = Ok tt
  /\ fs (snd (fetch_and_update_data Sample.unlisted Sample.fresh)) = fs Sample.fresh.
Proof.
  apply (abort_leaves_store_unchanged Sample.unlisted Sample.fresh []
           (tick Sample.fresh)).
  - reflexivity.
  - left. reflexivity.
Defined.

(** ** The publication steps and the cleanup *)

Lemma publish_run fd e s :
  (makedirs ;;; write_temp fd ;;; replace_temp) e s
  = if publish_fails (faults e) then
      (Raise OSError,
       {| fs := {| data_file := data_file (fs s);
                   temp_file := temp_after_failure (faults e) (temp_file (fs s)) fd |};
          ticks := ticks s |})
    else (Ok tt, {| fs := published fd; ticks := ticks s |}).
Proof.
  unfold publish_fails, temp_after_failure, makedirs, write_temp, replace_temp, os_call, bind, ask,
    raise, ret, modify_fs, get_fs.
  destruct s as [[d t] k]; simpl.
  destruct (makedirs_fails (faults e)); simpl; [reflexivity |].
  destruct (open_fails (faults e)); simpl; [reflexivity |].
  destruct (dump_fails (faults e)); simpl; [reflexivity |].
  destruct (replace_fails (faults e)); simpl; reflexivity.
Qed.

Lemma cleanup_run e s :
  (present <- temp_exists ;;
   if present then try_except remove_temp any_exception (fun _ => ret tt)
   else ret tt) e s
  = (Ok tt,
     {| fs := {| data_file := data_file (fs s);
                 temp_file := temp_after_cleanup (faults e) (temp_file (fs s)) |};
        ticks := ticks s |}).
Proof.
  unfold temp_after_cleanup, temp_exists, remove_temp, try_except, os_call, bind,
    ask, raise, ret, modify_fs, get_fs, any_exception.
  destruct s as [[d t] k]; simpl.
  destruct t as [doc |]; simpl; [| reflexivity].
  destruct (remove_fails (faults e)); reflexivity.
Qed.

(** The whole cycle once the listing and the contents are there. *)
Lemma cycle_run e s titles tcs s2 :
  fetch_title_structure e (tick s) = (Ok titles, tick s) ->
  titles <> [] ->
  fetch_all_title_contents titles e (tick s) = (Ok tcs, s2) ->
  tcs <> [] ->
  let doc := snapshot_of_cycle e (ticks s) (ticks s2) tcs in
  fetch_and_update_data e s
  = (Ok tt,
     {| fs :=
          if publish_fails (faults e) then
            {| data_file := data_file (fs s);
               temp_file :=
                 temp_after_cleanup (faults e)
                   (temp_after_failure (faults e) (temp_file (fs s)) doc) |}
          else published doc;
        ticks := S (S (List.length (aggregate tcs) + ticks s2)) |}).
Proof.
  intros Hlist Hne Hall Hne' doc.
  pose proof (fetch_all_title_contents_fs titles e (tick s)) as Hfs.
  rewrite Hall in Hfs. cbn [snd] in Hfs.
  unfold fetch_and_update_data. unfold bind at 1. rewrite utcnow_run.
  unfold try_except. unfold bind at 1. rewrite Hlist.
  destruct titles as [| t titles]; [congruence |]. cbn [is_empty].
  unfold bind at 1. rewrite Hall.
  destruct tcs as [| tc tcs]; [congruence |]. cbn [is_empty].
  unfold bind at 1. rewrite map_titles_to_agencies_run.
  unfold bind at 1. rewrite utcnow_run.
  unfold bind at 1. rewrite utcnow_run.
  rewrite publish_run. cbn [advance tick fs ticks].
  fold doc.
  destruct (publish_fails (faults e)).
  - rewrite cleanup_run. cbn [fs ticks data_file temp_file].
    rewrite Hfs. reflexivity.
  - reflexivity.
Qed.

(** ** The sort keeps the elements *)

Section SortPermutation.
Context {A : Type} (key : A -> float).

Lemma insert_perm x l : Permutation (insert key x l) (x :: l).
Proof.
  induction l as [| y l IH]; simpl; [reflexivity |].
  destruct (key x <? key y)%float; [reflexivity |].
  rewrite IH. apply perm_swap.
Qed.

Lemma sort_from_perm l : forall acc,
  Permutation (fold_left (fun sorted x => insert key x sorted) l acc) (acc ++ l).
Proof.
  induction l as [| x l IH]; intros acc; simpl.
  - rewrite app_nil_r. reflexivity.
  - rewrite IH, insert_perm. apply Permutation_middle.
Qed.

Lemma sort_perm l : Permutation (sort key l) l.
Proof. unfold sort. apply (sort_from_perm l []). Qed.

Lemma sort_reverse_perm l : Permutation (sort_reverse key l) l.
Proof.
  unfold sort_reverse.
  rewrite <- Permutation_rev, sort_perm, <- Permutation_rev. reflexivity.
Qed.
End SortPermutation.

Lemma stamped_length now items : forall k,
  List.length (stamped now k items) = List.length items.
Proof.
  induction items as [| [c d] rest IH]; intros k; simpl; [reflexivity |].
  now rewrite IH.
Qed.

Lemma stamped_last_updated now items : forall k r,
  In r (stamped now k items) ->
  exists i, (i < List.length items)%nat /\ last_updated r = now (k + i)%nat.
Proof.
  induction items as [| [c d] rest IH]; intros k r; simpl; [tauto |].
  intros [<- | Hin].
  - exists 0%nat. simpl. split; [lia | f_equal; lia].
  - destruct (IH _ _ Hin) as (i & Hi & ->).
    exists (S i). split; [lia | f_equal; lia].
Qed.

(** ** C2: a failed publication *)

(** C2, as the code has it.  When a step of writing or publishing the
    snapshot fails, no exception leaves [fetch_and_update_data] and the
    canonical snapshot is what it was; the temporary file is gone whenever
    its removal succeeds, and the removal's own failure is swallowed, leaving
    behind what the failed step had left. *)
Theorem failed_publication_is_contained e s titles tcs s2 :
  fetch_title_structure e (tick s) = (Ok titles, tick s) ->
  titles <> [] ->
  fetch_all_title_contents titles e (tick s) = (Ok tcs, s2) ->
  tcs <> [] ->
  publish_fails (faults e) = true ->
  let after := fs (snd (fetch_and_update_data e s)) in
  fst (fetch_and_update_data e s) = Ok tt
  /\ data_file after = data_file (fs s)
  /\ (remove_fails (faults e) = false -> temp_file after = None)
  /\ (remove_fails (faults e) = true ->
      temp_file after
      = temp_after_failure (faults e) (temp_file (fs s))
          (snapshot_of_cycle e (ticks s) (ticks s2) tcs)).
Proof.
  intros Hlist Hne Hall Hne' Hfail after. subst after.
  rewrite (cycle_run e s titles tcs s2 Hlist Hne Hall Hne'), Hfail.
  cbn [fst snd fs data_file temp_file]. unfold temp_after_cleanup.
  repeat split.
  - intros ->. now destruct (temp_after_failure _ _ _).
  - intros ->. now destruct (temp_after_failure _ _ _).
Qed.

Lemma failed_publication_is_contained_witness :
  let e := Sample.world (Ok (200, Ok [Sample.epa])) Sample.failed_rename in
  let after := fs (snd (fetch_and_update_data e Sample.fresh)) in
  publish_fails (faults e) = true
  /\ fst (fetch_and_update_data e Sample.fresh) = Ok tt
  /\ data_file after = None
  /\ temp_file after = None.
Proof.
  intros e after.
  destruct (fetch_all_title_contents_run [Sample.epa] e (tick Sample.fresh) eq_refl)
    as (tcs & s2 & Hall & _).
  assert (Hne : tcs <> []).
  { vm_compute in Hall. injection Hall as <- _. discriminate. }
  destruct (failed_publication_is_contained e Sample.fresh [Sample.epa] tcs s2)
    as (Hok & Hdata & Htemp & _);
    [reflexivity | discriminate | exact Hall | exact Hne | reflexivity |].
  split; [reflexivity |]. split; [exact Hok |].
  split; [exact Hdata | exact (Htemp eq_refl)].
Defined.

(** C2, as stated, fails: the write is interrupted and the removal of the
    temporary file fails too, so the truncated file stays. *)
Lemma stuck_temp_file_stays :
  let e := Sample.world (Ok (200, Ok [Sample.epa])) Sample.stuck_temp in
  publish_fails (faults e) = true
  /\ fst (fetch_and_update_data e Sample.fresh) = Ok tt
  /\ temp_file (fs (snd (fetch_and_update_data e Sample.fresh))) <> None.
Proof.
  vm_compute. repeat split; discriminate.
Qed.

(** ** C7: one content fetch *)

(** C7.  [fetch_title_content] never raises.  It returns [None] when the
    request raises (a timeout, a transport error), when the status is not
    200, when reading the body raises and when the body does not decode; and
    a result it does return carries the byte length of the body that was
    read. *)
Theorem fetch_title_content_never_raises n i e s :
  exists r,
    fetch_title_content n i e s = (Ok r, tick s)
    /\ (forall x, content_endpoint e i n = Raise x -> r = None)
    /\ (forall status body,
         content_endpoint e i n = Ok (status, body) -> status <> 200 -> r = None)
    /\ (forall x, content_endpoint e i n = Ok (200, Raise x) -> r = None)
    /\ (forall content x,
         content_endpoint e i n = Ok (200, Ok content) ->
         json_loads e content = Raise x -> r = None)
    /\ (forall tc,
         r = Some tc ->
         exists content,
           content_endpoint e i n = Ok (200, Ok content)
           /\ size_bytes tc = Z.of_nat (List.length content)).
Proof.
  unfold fetch_title_content, try_except, bind, ask, lift, ret, utcnow; simpl.
  fold (tick s).
  destruct (content_endpoint e i n) as [[status body] | x]; simpl.
  - destruct (Z.eqb_spec status 200) as [-> | Hstatus]; simpl.
    + destruct body as [content | x]; simpl.
      * destruct (json_loads e content) as [data | x] eqn:Hjson; simpl.
        -- destruct (json_get data _ _) as [nm | x]; simpl.
           ++ eexists; split; [reflexivity |].
              repeat split; try congruence.
              intros tc [= <-]. exists content. split; reflexivity.
           ++ exists None. split; [destruct x; reflexivity |].
              repeat split; congruence.
        -- exists None. split; [destruct x; reflexivity |].
           repeat split; congruence.
      * exists None. split; [destruct x; reflexivity |].
        repeat split; congruence.
    + exists None. split; [reflexivity |]. repeat split; congruence.
  - exists None. split; [destruct x; reflexivity |]. repeat split; congruence.
Qed.

(** ** Binary64 numbers and the nearest one to a fraction *)

Lemma div_rhe_half n d :
  0 <= n -> 0 < d ->
  0 <= div_rhe n d /\ 2 * Z.abs (div_rhe n d * d - n) <= d.
Proof.
  intros Hn Hd. unfold div_rhe.
  pose proof (Z.div_mod n d ltac:(lia)) as Hdm.
  pose proof (Z.mod_pos_bound n d Hd) as Hr.
  pose proof (Z.div_pos n d Hn Hd) as Hq.
  set (q := n / d) in *. set (r := n mod d) in *.
  destruct (Z.compare_spec (2 * r) d); [destruct (Z.even q) |..]; split; nia.
Qed.

(** The nearest integer is at least as close as any other. *)
Lemma div_rhe_nearest n d k :
  0 <= n -> 0 < d ->
  Z.abs (div_rhe n d * d - n) <= Z.abs (k * d - n).
Proof.
  intros Hn Hd. destruct (div_rhe_half n d Hn Hd) as [_ Hhalf].
  destruct (Z.eq_dec k (div_rhe n d)) as [-> | Hk]; [lia |].
  nia.
Qed.

Lemma digits2_pos_size m : digits2_pos m = Pos.size m.
Proof. induction m; simpl; congruence. Qed.

Lemma digits2_pos_bounds m :
  2 ^ (Zpos (digits2_pos m) - 1) <= Zpos m < 2 ^ Zpos (digits2_pos m).
Proof.
  rewrite digits2_pos_size. split.
  - pose proof (Pos.size_le m) as H.
    assert (Hp : (2 ^ Pos.size m <= 2 * m)%positive) by exact H.
    apply Pos2Z.pos_le_pos in Hp. rewrite Pos2Z.inj_pow in Hp.
    replace (Zpos (Pos.size m)) with (Zpos (Pos.size m) - 1 + 1) in Hp by lia.
    rewrite Z.pow_add_r in Hp by lia. change (2 ^ 1) with 2 in Hp. lia.
  - pose proof (Pos.size_gt m) as H.
    apply Pos2Z.pos_lt_pos in H. rewrite Pos2Z.inj_pow in H. exact H.
Qed.

(** What validity says of a finite binary64 number. *)
Lemma valid_finite_bounds s m e :
  valid_binary (S754_finite s m e) = true ->
  -1074 <= e <= 971 /\ Zpos m < 2 ^ 53.
Proof.
  unfold SpecFloat.valid_binary, bounded, canonical_mantissa, fexp.
  intros H. apply andb_prop in H as [Hc He].
  apply Z.eqb_eq in Hc. apply Z.leb_le in He.
  change (SpecFloat.emin prec emax) with (-1074) in Hc.
  change (emax - prec) with 971 in He. change prec with 53 in Hc.
  split; [lia |].
  pose proof (digits2_pos_bounds m) as [_ Hm].
  assert (Zpos (digits2_pos m) <= 53) by lia.
  eapply Z.lt_le_trans; [exact Hm |].
  apply Z.pow_le_mono_r; lia.
Qed.

Lemma digits2_pos_53 m :
  2 ^ 52 <= Zpos m < 2 ^ 53 -> Zpos (digits2_pos m) = 53.
Proof.
  intros [Hlo Hhi]. pose proof (digits2_pos_bounds m) as [Hd1 Hd2].
  destruct (Z.lt_trichotomy (Zpos (digits2_pos m)) 53) as [Hlt | [Heq | Hgt]];
    [exfalso | exact Heq | exfalso].
  - assert (2 ^ Zpos (digits2_pos m) <= 2 ^ 52) by (apply Z.pow_le_mono_r; lia).
    lia.
  - assert (2 ^ 53 <= 2 ^ (Zpos (digits2_pos m) - 1)) by (apply Z.pow_le_mono_r; lia).
    lia.
Qed.

Lemma digits2_pos_le_52 m :
  Zpos m < 2 ^ 52 -> Zpos (digits2_pos m) <= 52.
Proof.
  intros Hhi. pose proof (digits2_pos_bounds m) as [Hd1 _].
  destruct (Z.le_gt_cases (Zpos (digits2_pos m)) 52) as [Hle | Hgt]; [exact Hle |].
  assert (2 ^ 52 <= 2 ^ (Zpos (digits2_pos m) - 1)) by (apply Z.pow_le_mono_r; lia).
  lia.
Qed.

(** A mantissa below [2^53] at exponent [e] is a binary64 number when it
    fills its 53 bits or the exponent is the smallest one. *)
Lemma valid_finite_intro s m e :
  Zpos m < 2 ^ 53 ->
  -1074 <= e <= 971 ->
  2 ^ 52 <= Zpos m \/ e = -1074 ->
  valid_binary (S754_finite s m e) = true.
Proof.
  intros Hm He Hnorm.
  unfold SpecFloat.valid_binary, bounded, canonical_mantissa, fexp.
  change (SpecFloat.emin prec emax) with (-1074).
  change (emax - prec) with 971. change prec with 53.
  apply andb_true_intro. split; [apply Z.eqb_eq | apply Z.leb_le; lia].
  destruct (Z.le_gt_cases (2 ^ 52) (Zpos m)) as [Hbig | Hsmall].
  - rewrite (digits2_pos_53 m) by lia. lia.
  - pose proof (digits2_pos_le_52 m Hsmall). lia.
Qed.

Lemma leading_bit n d :
  0 < n -> 0 < d ->
  let t := Z.log2 (n * 2 ^ 1074 / d) in
  0 <= t
  /\ n * 2 ^ 1074 < d * 2 ^ (t + 1)
  /\ (1 <= t -> d * 2 ^ t <= n * 2 ^ 1074).
Proof.
  intros Hn Hd t.
  assert (HU : 0 < 2 ^ 1074) by (apply Z.pow_pos_nonneg; lia).
  set (N := n * 2 ^ 1074) in *.
  assert (HN : 0 < N) by (unfold N; nia).
  pose proof (Z.div_mod N d ltac:(lia)) as Hdm.
  pose proof (Z.mod_pos_bound N d Hd) as Hr.
  pose proof (Z.div_pos N d ltac:(lia) Hd) as Hq.
  pose proof (Z.log2_nonneg (N / d)) as Ht. fold t in Ht.
  split; [exact Ht |].
  destruct (Z.eq_dec (N / d) 0) as [Hz | Hnz].
  - assert (t = 0) as -> by (unfold t; rewrite Hz; reflexivity).
    change (2 ^ (0 + 1)) with 2. split; [nia | lia].
  - destruct (Z.log2_spec (N / d) ltac:(lia)) as [Hlo Hhi]. fold t in Hlo, Hhi.
    replace (Z.succ t) with (t + 1) in Hhi by lia.
    split; [nia | intros _; nia].
Qed.

Lemma nearest_core n d :
  0 < n -> 0 < d ->
  let g := Z.max (Z.log2 (n * 2 ^ 1074 / d) - 52) 0 in
  let m := div_rhe (n * 2 ^ 1074) (d * 2 ^ g) in
  0 <= g
  /\ 0 <= m <= 2 ^ 53
  /\ (1 <= g -> 2 ^ 52 <= m)
  /\ (1 <= g -> d * (2 ^ 52 * 2 ^ g) <= n * 2 ^ 1074)
  /\ (2046 <= g -> d * 2 ^ 2098 <= n * 2 ^ 1074)
  /\ 2 * Z.abs (m * (d * 2 ^ g) - n * 2 ^ 1074) <= d * 2 ^ g.
Proof.
  intros Hn Hd g m.
  destruct (leading_bit n d Hn Hd) as (Ht & Hhi & Hlo).
  set (t := Z.log2 (n * 2 ^ 1074 / d)) in *.
  assert (HU : 0 < 2 ^ 1074) by (apply Z.pow_pos_nonneg; lia).
  set (N := n * 2 ^ 1074) in *.
  assert (HN : 0 < N) by (unfold N; nia).
  assert (Hg : 0 <= g) by (unfold g; lia).
  assert (HG : 0 < 2 ^ g) by (apply Z.pow_pos_nonneg; lia).
  assert (HD : 0 < d * 2 ^ g) by nia.
  destruct (div_rhe_half N (d * 2 ^ g) ltac:(lia) HD) as [Hm0 Hhalf]. fold m in Hm0, Hhalf.
  assert (Hup : 2 ^ (t + 1) <= 2 ^ g * 2 ^ 53).
  { rewrite <- Z.pow_add_r by lia. apply Z.pow_le_mono_r; unfold g; lia. }
  assert (Hdown : 1 <= g -> 2 ^ t = 2 ^ 52 * 2 ^ g).
  { intros H1. rewrite <- Z.pow_add_r by lia. f_equal. unfold g in *. lia. }
  assert (H53 : 0 < 2 ^ 53) by (apply Z.pow_pos_nonneg; lia).
  assert (H52 : 2 ^ 53 = 2 * 2 ^ 52) by reflexivity.
  split; [exact Hg |].
  split.
  { split; [exact Hm0 |].
    assert (N < d * 2 ^ g * 2 ^ 53) by nia.
    set (D := d * 2 ^ g) in *. set (P := 2 ^ 53) in *. nia. }
  split.
  { intros H1. specialize (Hdown H1). specialize (Hlo ltac:(unfold t, g in *; lia)).
    rewrite Hdown in Hlo.
    set (D := d * 2 ^ g) in *. set (P := 2 ^ 52) in *.
    assert (D * P <= N) by (unfold D; nia).
    assert (0 < P) by (apply Z.pow_pos_nonneg; lia). nia. }
  split.
  { intros H1. specialize (Hdown H1). specialize (Hlo ltac:(unfold t, g in *; lia)).
    rewrite Hdown in Hlo. exact Hlo. }
  split; [| exact Hhalf].
  intros H1. specialize (Hlo ltac:(unfold t, g in *; lia)).
  assert (2 ^ 2098 <= 2 ^ t) by (apply Z.pow_le_mono_r; unfold g in *; lia).
  nia.
Qed.

(** No binary64 number is closer to [N / (d * 2^1074)] than the multiple of
    [2^g] that [div_rhe] picks. *)
Lemma nearest_among_floats N d g F :
  0 <= N -> 0 < d -> 0 <= g ->
  (1 <= g -> d * (2 ^ 52 * 2 ^ g) <= N) ->
  valid_binary F = true -> SFfinite F = true ->
  Z.abs (d * (div_rhe N (d * 2 ^ g) * 2 ^ g) - N) <= Z.abs (d * magnitude F - N).
Proof.
  intros HN Hd Hg Hnormal Hvalid Hfin.
  assert (HG : 0 < 2 ^ g) by (apply Z.pow_pos_nonneg; lia).
  assert (HD : 0 < d * 2 ^ g) by nia.
  set (m := div_rhe N (d * 2 ^ g)).
  assert (Hk : forall k, Z.abs (d * (m * 2 ^ g) - N) <= Z.abs (d * (k * 2 ^ g) - N)).
  { intros k. pose proof (div_rhe_nearest N (d * 2 ^ g) k HN HD) as H. fold m in H.
    replace (d * (m * 2 ^ g)) with (m * (d * 2 ^ g)) by ring.
    replace (d * (k * 2 ^ g)) with (k * (d * 2 ^ g)) by ring. exact H. }
  destruct F as [sf | sf | | sf mf ef]; try discriminate.
  - simpl. specialize (Hk 0). simpl in Hk. replace (d * 0) with 0 in * by ring. exact Hk.
  - destruct (valid_finite_bounds sf mf ef Hvalid) as [He Hmf].
    cbn [magnitude].
    destruct (Z.le_gt_cases g (ef + 1074)) as [Hge | Hlt].
    + specialize (Hk (Zpos mf * 2 ^ (ef + 1074 - g))).
      replace (Zpos mf * 2 ^ (ef + 1074 - g) * 2 ^ g) with (Zpos mf * 2 ^ (ef + 1074)) in Hk.
      * exact Hk.
      * rewrite <- Z.mul_assoc, <- Z.pow_add_r by lia. do 2 f_equal. lia.
    + specialize (Hnormal ltac:(lia)). specialize (Hk (2 ^ 52)).
      assert (Hstep : 2 * 2 ^ (ef + 1074) <= 2 ^ g).
      { change 2 with (2 ^ 1) at 1. rewrite <- Z.pow_add_r by lia.
        apply Z.pow_le_mono_r; lia. }
      assert (HF : 0 < 2 ^ (ef + 1074)) by (apply Z.pow_pos_nonneg; lia).
      assert (Hbelow : Zpos mf * 2 ^ (ef + 1074) <= 2 ^ 52 * 2 ^ g).
      { change (2 ^ 53) with (2 * 2 ^ 52) in Hmf.
        set (P := 2 ^ 52) in *. set (A := 2 ^ (ef + 1074)) in *. set (B := 2 ^ g) in *.
        nia. }
      set (X := Zpos mf * 2 ^ (ef + 1074)) in *.
      set (T := 2 ^ 52 * 2 ^ g) in *.
      assert (d * X <= d * T) by nia.
      lia.
Qed.

(** What [nearest_binary64] returns: an infinity only for a fraction at or
    beyond the overflow threshold, and otherwise a binary64 number of the
    sign asked for that is at least as close to [n / d] as any other. *)
Lemma nearest_binary64_spec s n d :
  0 <= n -> 0 < d ->
  let r := nearest_binary64 s n d in
  (r = S754_infinity s
   /\ d * ((2 ^ 54 - 1) * 2 ^ 2045) <= 2 * (n * 2 ^ 1074))
  \/ (SFfinite r = true
      /\ valid_binary r = true
      /\ SFsign r = s
      /\ forall F, valid_binary F = true -> SFfinite F = true ->
           Z.abs (d * magnitude r - n * 2 ^ 1074)
           <= Z.abs (d * magnitude F - n * 2 ^ 1074)).
Proof.
  intros Hn Hd r. subst r. unfold nearest_binary64.
  destruct (Z.eqb_spec n 0) as [-> | Hnz].
  { right. repeat split. intros F _ _. simpl. lia. }
  assert (Hpos : 0 < n) by lia.
  destruct (nearest_core n d Hpos Hd) as (Hg & Hm & Hnormal & Hlow & Hhuge & Hhalf).
  set (g := Z.max (Z.log2 (n * 2 ^ 1074 / d) - 52) 0) in *.
  assert (HU : 0 < 2 ^ 1074) by (apply Z.pow_pos_nonneg; lia).
  set (N := n * 2 ^ 1074) in *.
  assert (HN : 0 <= N) by (unfold N; nia).
  pose proof (fun F => nearest_among_floats N d g F HN Hd Hg Hlow) as Hnear.
  set (m := div_rhe N (d * 2 ^ g)) in *.
  assert (HG : 0 < 2 ^ g) by (apply Z.pow_pos_nonneg; lia).
  assert (Hover : 2046 <= g -> d * ((2 ^ 54 - 1) * 2 ^ 2045) <= 2 * N).
  { intros H. specialize (Hhuge H).
    assert ((2 ^ 54 - 1) * 2 ^ 2045 <= 2 * 2 ^ 2098) by (vm_compute; discriminate).
    nia. }
  destruct (Z.eqb_spec m (2 ^ 53)) as [Hm53 | Hm53].
  - destruct (Z.ltb_spec 2045 (g + 1)) as [Hbig | Hfit].
    + left. split; [reflexivity |].
      destruct (Z.eq_dec g 2045) as [Hg45 | Hg45]; [| apply Hover; lia].
      rewrite Hm53, Hg45 in Hhalf.
      assert ((2 ^ 54 - 1) * 2 ^ 2045 = 2 * (2 ^ 53 * 2 ^ 2045) - 2 ^ 2045)
        by (vm_compute; reflexivity).
      set (A := 2 ^ 2045) in *. set (B := 2 ^ 53) in *. nia.
    + right.
      change (2 ^ 52) with (Zpos (2 ^ 52)%positive).
      assert (Hmag : magnitude (S754_finite s (2 ^ 52) (g + 1 - 1074)) = m * 2 ^ g).
      { cbn [magnitude]. rewrite Hm53.
        replace (g + 1 - 1074 + 1074) with (g + 1) by lia.
        rewrite Z.pow_add_r by lia.
        change (2 ^ 1) with 2. change (2 ^ 53) with (Zpos (2 ^ 52) * 2). ring. }
      split; [reflexivity |]. split.
      { apply valid_finite_intro; [reflexivity | lia | left; discriminate]. }
      split; [reflexivity |].
      intros F HvF HfF. rewrite Hmag. apply Hnear; assumption.
  - destruct (Z.ltb_spec 2045 g) as [Hbig | Hfit].
    + left. split; [reflexivity | apply Hover; lia].
    + right. destruct m as [| p | p] eqn:Hmp; [| | lia].
      * split; [reflexivity |]. split; [reflexivity |]. split; [reflexivity |].
        intros F HvF HfF. specialize (Hnear F HvF HfF).
        simpl in Hnear |- *. replace (d * 0) with 0 in * by ring. exact Hnear.
      * assert (Hmag : magnitude (S754_finite s p (g - 1074)) = Zpos p * 2 ^ g).
        { cbn [magnitude]. replace (g - 1074 + 1074) with g by lia. reflexivity. }
        split; [reflexivity |]. split.
        { apply valid_finite_intro; [lia | lia |].
          destruct (Z.eq_dec g 0) as [-> | Hg0]; [right; lia | left; apply Hnormal; lia]. }
        split; [reflexivity |].
        intros F HvF HfF. rewrite Hmag. apply Hnear; assumption.
Qed.

(** ** [round(x, 2)] stays within a hundredth *)

Lemma round2_finite x s m e :
  Prim2SF x = S754_finite s m e ->
  let r := Prim2SF (round2 x) in
  SFfinite r = true
  /\ SFsign r = s
  /\ 100 * Z.abs (magnitude r - magnitude (Prim2SF x)) <= 2 ^ 1074.
Proof.
  intros Hx r. subst r. unfold round2. rewrite Hx.
  pose proof (Prim2SF_valid x) as Hvalid. rewrite Hx in Hvalid.
  destruct (valid_finite_bounds s m e Hvalid) as [He Hm].
  cbn [magnitude]. set (X := Zpos m * 2 ^ (e + 1074)).
  assert (HU : 0 < 2 ^ 1074) by (apply Z.pow_pos_nonneg; lia).
  assert (HE : 0 < 2 ^ (e + 1074)) by (apply Z.pow_pos_nonneg; lia).
  assert (HX : 0 < X) by (unfold X; nia).
  unfold hundredths. fold X.
  destruct (div_rhe_half (100 * X) (2 ^ 1074) ltac:(lia) HU) as [Hq Hhalf].
  set (q := div_rhe (100 * X) (2 ^ 1074)) in *.
  destruct (nearest_binary64_spec s q 100 Hq ltac:(lia)) as [[_ Hover] | Hfinite].
  - exfalso.
    assert (HXmax : X <= 2 ^ 53 * 2 ^ 2045 - 2 ^ 2045).
    { assert (2 ^ (e + 1074) <= 2 ^ 2045) by (apply Z.pow_le_mono_r; lia).
      unfold X. set (A := 2 ^ 2045) in *. set (B := 2 ^ 53) in *.
      set (E := 2 ^ (e + 1074)) in *. nia. }
    assert (H1 : (2 ^ 54 - 1) * 2 ^ 2045 = 2 * (2 ^ 53 * 2 ^ 2045) - 2 ^ 2045)
      by (vm_compute; reflexivity).
    assert (H2 : 2 ^ 1074 < 2 ^ 2045) by (vm_compute; reflexivity).
    rewrite H1 in Hover.
    set (K := 2 ^ 53 * 2 ^ 2045) in *. set (A := 2 ^ 2045) in *.
    set (U := 2 ^ 1074) in *. lia.
  - destruct Hfinite as (Hfin & Hval & Hsign & Hnear).
    rewrite (Prim2SF_SF2Prim _ Hval).
    split; [exact Hfin |]. split; [exact Hsign |].
    specialize (Hnear (S754_finite s m e) Hvalid eq_refl).
    cbn [magnitude] in Hnear. fold X in Hnear.
    set (Y := magnitude (nearest_binary64 s q 100)) in *.
    set (U := 2 ^ 1074) in *. lia.
Qed.

Lemma Qabs_same_denominator a b p :
  100 * Z.abs (a - b) <= Zpos p -> (Qabs ((a # p) - (b # p)) <= 1 # 100)%Q.
Proof.
  intros H. unfold Qminus, Qplus, Qopp, Qabs, Qle. cbn [Qnum Qden].
  rewrite Pos2Z.inj_mul.
  replace (a * Zpos p + - b * Zpos p) with ((a - b) * Zpos p) by ring.
  rewrite Z.abs_mul. rewrite (Z.abs_eq (Zpos p)) by lia. nia.
Qed.

(** The value [round(x, 2)] returns differs from [x] by a hundredth at most
    (and is [x] itself when [x] is an infinity or a NaN). *)
Lemma round2_within_a_cent x : within_a_cent (round2 x) x.
Proof.
  unfold within_a_cent, value.
  destruct (Prim2SF x) as [s | s | | s m e] eqn:Hx.
  - unfold round2. rewrite Hx, Hx. unfold SFvalue. cbn [SFfinite SFsign magnitude].
    apply Qabs_same_denominator. generalize (2 ^ 1074)%positive. intros p.
    destruct s; cbn; lia.
  - unfold round2. rewrite Hx, Hx. reflexivity.
  - unfold round2. rewrite Hx, Hx. reflexivity.
  - destruct (round2_finite x s m e Hx) as (Hfin & Hsign & Hclose).
    rewrite Hx in Hclose. unfold SFvalue. rewrite Hfin. cbn [SFfinite SFsign].
    rewrite Hsign. apply Qabs_same_denominator.
    change (Zpos (2 ^ 1074)) with (2 ^ 1074).
    cbn [magnitude] in *. destruct s; lia.
Qed.

(** ** The first loop of the aggregator, in closed form *)

Lemma discovered_snoc codes c :
  discovered (codes ++ [c]) = discover (discovered codes) c.
Proof. unfold discovered. rewrite fold_left_app. reflexivity. Qed.

Lemma existsb_eqb_In c seen :
  existsb (String.eqb c) seen = true <-> In c seen.
Proof.
  rewrite existsb_exists. split.
  - intros (x & Hin & Heq). apply String.eqb_eq in Heq. now subst.
  - intros Hin. exists c. split; [exact Hin | apply String.eqb_refl].
Qed.

Lemma discovered_In codes c : In c (discovered codes) <-> In c codes.
Proof.
  induction codes as [| x codes IH] using rev_ind; [simpl; tauto |].
  rewrite discovered_snoc, in_app_iff. unfold discover.
  destruct (existsb (String.eqb x) (discovered codes)) eqn:Hseen.
  - apply existsb_eqb_In in Hseen. rewrite IH in *. simpl.
    intuition (subst; auto).
  - rewrite in_app_iff, IH. simpl. tauto.
Qed.

Lemma discovered_NoDup codes : NoDup (discovered codes).
Proof.
  induction codes as [| x codes IH] using rev_ind; [constructor |].
  rewrite discovered_snoc. unfold discover.
  destruct (existsb (String.eqb x) (discovered codes)) eqn:Hseen; [exact IH |].
  apply NoDup_app; [exact IH | repeat constructor; simpl; tauto |].
  intros c Hc [<- | []].
  apply existsb_eqb_In in Hc. congruence.
Qed.

Lemma members_snoc k tcs tc :
  members k (tcs ++ [tc])
  = members k tcs ++ (if String.eqb (code_of tc) k then [tc] else []).
Proof. unfold members. rewrite filter_app. reflexivity. Qed.

Lemma members_nil_iff k tcs : members k tcs = [] <-> ~ In k (map code_of tcs).
Proof.
  unfold members. induction tcs as [| tc tcs IH]; simpl; [tauto |].
  destruct (String.eqb_spec (code_of tc) k) as [Heq | Hne].
  - split; [discriminate | intros H; exfalso; apply H; auto].
  - rewrite IH. tauto.
Qed.

Lemma py_sum_snoc l x : py_sum (l ++ [x]) = (py_sum l + x)%float.
Proof. unfold py_sum. rewrite fold_left_app. reflexivity. Qed.

Lemma group_snoc_other k tcs tc :
  code_of tc <> k -> group k (tcs ++ [tc]) = group k tcs.
Proof.
  intros Hne. unfold group. rewrite members_snoc.
  destruct (String.eqb_spec (code_of tc) k); [contradiction |].
  rewrite app_nil_r. reflexivity.
Qed.

Lemma group_snoc_same tcs tc :
  In (code_of tc) (map code_of tcs) ->
  group (code_of tc) (tcs ++ [tc]) = credit tc (group (code_of tc) tcs).
Proof.
  intros Hin. unfold group, credit. cbn [acc_name acc_code acc_regulation_size_mb acc_titles].
  rewrite members_snoc, String.eqb_refl, !map_app. cbn [map]. rewrite py_sum_snoc.
  destruct (members (code_of tc) tcs) as [| tc' rest] eqn:Hm; [| reflexivity].
  apply members_nil_iff in Hm. contradiction.
Qed.

Lemma group_snoc_new tcs tc :
  ~ In (code_of tc) (map code_of tcs) ->
  group (code_of tc) (tcs ++ [tc])
  = credit tc {| acc_name := info_name (agency_of_title (title_number tc));
                 acc_code := code_of tc;
                 acc_regulation_size_mb := 0.0%float;
                 acc_titles := [] |}.
Proof.
  intros Hnew. apply members_nil_iff in Hnew.
  unfold group, credit. cbn [acc_name acc_code acc_regulation_size_mb acc_titles].
  rewrite members_snoc, String.eqb_refl, Hnew. reflexivity.
Qed.

Section DictFacts.
Context {V : Type}.
Implicit Types (d : Dict.t V) (f : string -> V).

Lemma dict_contains_map f c keys :
  Dict.contains c (map (fun k => (k, f k)) keys) = existsb (String.eqb c) keys.
Proof.
  unfold Dict.contains. induction keys as [| k keys IH]; simpl; [reflexivity |].
  destruct (String.eqb c k); [reflexivity | exact IH].
Qed.

Lemma dict_set_fresh f c v keys :
  ~ In c keys ->
  Dict.set c v (map (fun k => (k, f k)) keys) = map (fun k => (k, f k)) keys ++ [(c, v)].
Proof.
  induction keys as [| k keys IH]; simpl; intros Hnew; [reflexivity |].
  destruct (String.eqb_spec c k) as [-> | Hne]; [tauto |].
  rewrite IH by tauto. reflexivity.
Qed.

Lemma dict_update_absent (h : V -> V) c d :
  ~ In c (Dict.keys d) -> Dict.update c h d = d.
Proof.
  induction d as [| [k v] d IH]; simpl; intros Hnew; [reflexivity |].
  destruct (String.eqb_spec c k) as [-> | Hne]; [tauto |].
  rewrite IH by tauto. reflexivity.
Qed.

Lemma dict_update_last (h : V -> V) c v d :
  ~ In c (Dict.keys d) -> Dict.update c h (d ++ [(c, v)]) = d ++ [(c, h v)].
Proof.
  induction d as [| [k w] d IH]; simpl; intros Hnew.
  - now rewrite String.eqb_refl.
  - destruct (String.eqb_spec c k) as [-> | Hne]; [tauto |].
    rewrite IH by tauto. reflexivity.
Qed.

(** Updating the object under [c] turns [f c] into [h (f c)] and leaves the
    objects under the other keys as they are. *)
Lemma dict_update_map (h : V -> V) f f' c keys :
  NoDup keys ->
  f' c = h (f c) ->
  (forall k, k <> c -> f' k = f k) ->
  Dict.update c h (map (fun k => (k, f k)) keys) = map (fun k => (k, f' k)) keys.
Proof.
  intros Hnd Hc Hother.
  induction keys as [| k keys IH]; simpl; [reflexivity |].
  inversion Hnd as [| ? ? Hk Hnd']; subst.
  destruct (String.eqb_spec c k) as [-> | Hne].
  - rewrite Hc. f_equal.
    apply map_ext_in. intros k' Hk'. rewrite Hother; [reflexivity |].
    intros ->. contradiction.
  - rewrite Hother by congruence. f_equal. apply IH, Hnd'.
Qed.
End DictFacts.

(** The dictionary after the first loop: one object per discovered code, in
    discovery order, holding the inputs filed under that code. *)
Lemma aggregate_spec tcs :
  aggregate tcs
  = map (fun k => (k, group k tcs)) (discovered (map code_of tcs)).
Proof.
  induction tcs as [| tc tcs IH] using rev_ind; [reflexivity |].
  unfold aggregate in *. rewrite fold_left_app. cbn [fold_left]. rewrite IH.
  rewrite map_app. cbn [map]. rewrite discovered_snoc.
  unfold add_title, discover. fold (code_of tc).
  rewrite dict_contains_map.
  pose proof (discovered_NoDup (map code_of tcs)) as Hnd.
  destruct (existsb (String.eqb (code_of tc)) (discovered (map code_of tcs))) eqn:Hseen.
  - apply existsb_eqb_In in Hseen. rewrite discovered_In in Hseen.
    apply dict_update_map; [exact Hnd | |].
    + apply group_snoc_same, Hseen.
    + intros k Hk. apply group_snoc_other. congruence.
  - assert (Hnew : ~ In (code_of tc) (discovered (map code_of tcs))).
    { intros H. apply existsb_eqb_In in H. congruence. }
    rewrite dict_set_fresh by exact Hnew.
    rewrite dict_update_last.
    + rewrite map_app. cbn [map]. f_equal.
      * apply map_ext_in. intros k Hk. rewrite group_snoc_other; [reflexivity |].
        intros <-. contradiction.
      * rewrite group_snoc_new; [reflexivity |].
        now rewrite <- discovered_In.
    + unfold Dict.keys. rewrite map_map. cbn [fst]. now rewrite map_id.
Qed.

(** ** The order of binary64 numbers *)

Ltac compare_cases :=
  repeat match goal with
  | |- context [Pos.compare_cont Eq ?a ?b] =>
      change (Pos.compare_cont Eq a b) with (Pos.compare a b)
  | H : context [Pos.compare_cont Eq ?a ?b] |- _ =>
      change (Pos.compare_cont Eq a b) with (Pos.compare a b) in H
  end;
  repeat match goal with
  | |- context [Z.compare ?a ?b] => destruct (Z.compare_spec a b)
  | H : context [Z.compare ?a ?b] |- _ => destruct (Z.compare_spec a b)
  | |- context [Pos.compare ?a ?b] => destruct (Pos.compare_spec a b)
  | H : context [Pos.compare ?a ?b] |- _ => destruct (Pos.compare_spec a b)
  end;
  cbn in *; subst; try congruence; try lia.

Ltac spec_float_cases x := destruct x as [[] | [] | | [] ? ?].

Lemma SFleb_trans x y z :
  SFleb x y = true -> SFleb y z = true -> SFleb x z = true.
Proof.
  unfold SFleb.
  spec_float_cases x; spec_float_cases y; spec_float_cases z;
    cbn; try congruence; compare_cases.
Qed.

Lemma SFltb_not_leb x y :
  x <> S754_nan -> y <> S754_nan -> SFltb x y = negb (SFleb y x).
Proof.
  unfold SFleb, SFltb.
  spec_float_cases x; spec_float_cases y; cbn; try congruence; compare_cases.
Qed.

Lemma SFeqb_leb x y : SFeqb x y = SFleb x y && SFleb y x.
Proof.
  unfold SFleb, SFeqb.
  spec_float_cases x; spec_float_cases y; cbn; try congruence; compare_cases.
Qed.

Lemma SFeqb_refl x : x <> S754_nan -> SFeqb x x = true.
Proof.
  unfold SFeqb. spec_float_cases x; cbn; try congruence;
    rewrite ?Z.compare_refl, ?Pos.compare_cont_refl; reflexivity.
Qed.

Lemma is_nan_false x : is_nan x = false <-> Prim2SF x <> S754_nan.
Proof.
  unfold is_nan. rewrite FloatAxioms.eqb_spec. split.
  - intros H Hnan. rewrite Hnan in H. discriminate.
  - intros H. now rewrite SFeqb_refl.
Qed.

Lemma Prim2SF_infinity : Prim2SF infinity = S754_infinity false.
Proof. reflexivity. Qed.

Lemma is_finite_true x : is_finite x = true <-> SFfinite (Prim2SF x) = true.
Proof.
  unfold is_finite, is_nan, is_infinity.
  rewrite !FloatAxioms.eqb_spec, abs_spec, Prim2SF_infinity.
  destruct (Prim2SF x) as [[] | [] | | [] ? ?]; cbn;
    rewrite ?Z.compare_refl, ?Pos.compare_cont_refl; cbn; intuition congruence.
Qed.

Lemma finite_not_nan x : is_finite x = true -> is_nan x = false.
Proof.
  rewrite is_finite_true, is_nan_false. now destruct (Prim2SF x).
Qed.

Lemma leb_trans x y z :
  (x <=? y)%float = true -> (y <=? z)%float = true -> (x <=? z)%float = true.
Proof. rewrite !FloatAxioms.leb_spec. apply SFleb_trans. Qed.

Lemma ltb_not_leb x y :
  is_nan x = false -> is_nan y = false -> (x <? y)%float = negb (y <=? x)%float.
Proof.
  rewrite !is_nan_false, FloatAxioms.ltb_spec, FloatAxioms.leb_spec. apply SFltb_not_leb.
Qed.

Lemma ltb_leb x y : (x <? y)%float = true -> (x <=? y)%float = true.
Proof.
  rewrite FloatAxioms.ltb_spec, FloatAxioms.leb_spec. unfold SFltb, SFleb.
  now destruct (SFcompare _ _) as [[] |].
Qed.

Lemma ltb_numbers x y :
  (x <? y)%float = true -> is_nan x = false /\ is_nan y = false.
Proof.
  intros H. rewrite FloatAxioms.ltb_spec in H. rewrite !is_nan_false.
  split; intros Hn; rewrite Hn in H; [discriminate |].
  unfold SFltb in H. now destruct (Prim2SF x).
Qed.

Lemma ltb_not_geb x y : (x <? y)%float = true -> (y <=? x)%float = false.
Proof.
  intros H. destruct (ltb_numbers x y H) as [Hx Hy].
  rewrite (ltb_not_leb x y Hx Hy) in H. now destruct (y <=? x)%float.
Qed.

Lemma leb_refl x : is_nan x = false -> (x <=? x)%float = true.
Proof.
  unfold is_nan. rewrite FloatAxioms.eqb_spec, SFeqb_leb, <- !FloatAxioms.leb_spec. now destruct (x <=? x)%float.
Qed.

Lemma eqb_leb x y : (x =? y)%float = ((x <=? y) && (y <=? x))%float.
Proof. rewrite FloatAxioms.eqb_spec, !FloatAxioms.leb_spec. apply SFeqb_leb. Qed.

(** ** Sums of finite numbers are numbers *)

Lemma iter_pos_invariant {A} (f : A -> A) (P : A -> Prop) :
  (forall a, P a -> P (f a)) -> forall n a, P a -> P (SpecFloat.iter_pos f n a).
Proof.
  intros Hf. induction n as [n IH | n IH |]; intros a Ha; simpl; auto.
Qed.

Lemma shr_1_nonneg mrs : 0 <= shr_m mrs -> 0 <= shr_m (shr_1 mrs).
Proof.
  destruct mrs as [m r s]. simpl. intros Hm.
  destruct m as [| [p | p |] | p]; simpl; lia.
Qed.

Lemma shr_fexp_nonneg m e l :
  0 <= m -> 0 <= shr_m (fst (shr_fexp prec emax m e l)).
Proof.
  intros Hm. unfold shr_fexp, shr.
  assert (H0 : 0 <= shr_m (shr_record_of_loc m l)) by (destruct l as [| []]; exact Hm).
  destruct (fexp prec emax (Zdigits2 m + e) - e); simpl; [exact H0 | | exact H0].
  apply iter_pos_invariant; [apply shr_1_nonneg | exact H0].
Qed.

Lemma round_nearest_even_nonneg m l : 0 <= m -> 0 <= round_nearest_even m l.
Proof.
  intros Hm. destruct l as [| []]; simpl; [lia | | lia | lia].
  destruct (Z.even m); lia.
Qed.

Lemma binary_round_aux_not_nan s m e l :
  0 <= m -> binary_round_aux prec emax s m e l <> S754_nan.
Proof.
  intros Hm. unfold binary_round_aux.
  pose proof (shr_fexp_nonneg m e l Hm) as H1.
  destruct (shr_fexp prec emax m e l) as [mrs' e'] eqn:E1. cbn [fst] in H1.
  pose proof (shr_fexp_nonneg _ e' loc_Exact
                (round_nearest_even_nonneg _ (loc_of_shr_record mrs') H1)) as H2.
  destruct (shr_fexp prec emax (round_nearest_even _ _) e' loc_Exact) as [mrs'' e''].
  cbn [fst] in H2.
  destruct (shr_m mrs''); [discriminate | | lia].
  destruct (e'' <=? emax - prec); discriminate.
Qed.

Lemma binary_normalize_not_nan m e sz :
  binary_normalize prec emax m e sz <> S754_nan.
Proof.
  unfold binary_normalize, binary_round.
  destruct m as [| p | p]; [discriminate | |];
    destruct (shl_align _ _ _); apply binary_round_aux_not_nan; lia.
Qed.

Lemma SFadd_not_nan x y :
  x <> S754_nan -> SFfinite y = true -> SF64add x y <> S754_nan.
Proof.
  intros Hx Hy. unfold SF64add, SFadd.
  destruct x as [[] | [] | | sx mx ex]; destruct y as [[] | [] | | sy my ey];
    try discriminate; try congruence; apply binary_normalize_not_nan.
Qed.

Lemma add_not_nan x y :
  is_nan x = false -> is_finite y = true -> is_nan (x + y)%float = false.
Proof.
  rewrite !is_nan_false, is_finite_true, add_spec. apply SFadd_not_nan.
Qed.

Lemma py_sum_not_nan l :
  Forall (fun x => is_finite x = true) l -> is_nan (py_sum l) = false.
Proof.
  unfold py_sum. generalize 0.0%float, (eq_refl : is_nan 0.0%float = false).
  induction l as [| x l IH]; intros acc Hacc Hl; simpl; [exact Hacc |].
  inversion Hl; subst. apply IH; [| assumption]. now apply add_not_nan.
Qed.

Lemma round2_not_nan x : is_nan x = false -> is_nan (round2 x) = false.
Proof.
  intros Hx. destruct (Prim2SF x) as [s | s | | s m e] eqn:E.
  - unfold round2. now rewrite E.
  - unfold round2. now rewrite E.
  - apply is_nan_false in Hx. contradiction.
  - destruct (round2_finite x s m e E) as (Hfin & _).
    apply is_nan_false. now destruct (Prim2SF (round2 x)).
Qed.

(** ** The sort orders the list and is stable *)

Section SortFacts.
Context {A : Type} (key : A -> float).

Let number (a : A) : Prop := is_nan (key a) = false.
Let below (a b : A) : Prop := (key a <=? key b)%float = true.
Let same (k : float) (a : A) : bool := (key a =? k)%float.

Lemma insert_sorted x l :
  number x -> Forall number l ->
  StronglySorted below l -> StronglySorted below (insert key x l).
Proof.
  intros Hx Hl Hs. induction Hs as [| y l Hs IH Hy]; simpl.
  - repeat constructor.
  - inversion Hl as [| ? ? Hny Hnl]; subst.
    destruct (key x <? key y)%float eqn:Hlt.
    + constructor; [constructor; assumption |].
      apply ltb_leb in Hlt. constructor; [exact Hlt |].
      eapply Forall_impl; [| exact Hy].
      intros z Hz. eapply leb_trans; [exact Hlt | exact Hz].
    + constructor; [apply IH; assumption |].
      eapply Permutation_Forall; [symmetry; apply insert_perm |].
      constructor; [| exact Hy].
      unfold below. rewrite (ltb_not_leb _ _ Hx Hny) in Hlt.
      now destruct (key y <=? key x)%float.
Qed.

Lemma sort_from_sorted l : forall acc,
  Forall number acc -> Forall number l -> StronglySorted below acc ->
  StronglySorted below (fold_left (fun sorted x => insert key x sorted) l acc).
Proof.
  induction l as [| x l IH]; intros acc Hacc Hl Hs; simpl; [exact Hs |].
  inversion Hl; subst.
  apply IH; [| assumption | now apply insert_sorted].
  eapply Permutation_Forall; [symmetry; apply insert_perm |]. now constructor.
Qed.

Lemma sort_sorted l : Forall number l -> StronglySorted below (sort key l).
Proof. intros Hl. apply sort_from_sorted; [constructor | exact Hl | constructor]. Qed.

Lemma insert_stable k x l :
  StronglySorted below l ->
  filter (same k) (insert key x l) = filter (same k) l ++ filter (same k) [x].
Proof.
  intros Hs. induction Hs as [| y l Hs IH Hy]; [reflexivity |].
  assert (Hcons : forall (a : A) l',
            filter (same k) (a :: l')
            = if same k a then a :: filter (same k) l' else filter (same k) l')
    by reflexivity.
  cbn [insert]. destruct (key x <? key y)%float eqn:Hlt.
  - rewrite (Hcons x (y :: l)), (Hcons x []).
    change (filter (same k) []) with (@nil A).
    destruct (same k x) eqn:Hkx; [| now rewrite app_nil_r].
    (* nothing of the class of [k] is at or after [y] *)
    destruct (ltb_numbers _ _ Hlt) as [_ Hny].
    pose proof (ltb_not_geb _ _ Hlt) as Hge.
    unfold same in Hkx. rewrite eqb_leb in Hkx. apply andb_prop in Hkx as [_ Hkx].
    assert (Hall : Forall (fun z => same k z = false) (y :: l)).
    { assert (Hyz : Forall (below y) (y :: l))
        by (constructor; [apply leb_refl, Hny | exact Hy]).
      eapply Forall_impl; [| exact Hyz].
      intros z Hz. unfold same. destruct (key z =? k)%float eqn:Hzk; [| reflexivity].
      rewrite eqb_leb in Hzk. apply andb_prop in Hzk as [Hzk _].
      assert ((key y <=? key x)%float = true).
      { eapply leb_trans; [exact Hz |]. eapply leb_trans; [exact Hzk | exact Hkx]. }
      congruence. }
    assert (Hnone : filter (same k) (y :: l) = []).
    { clear - Hall. induction Hall as [| z l' Hz _ IH']; [reflexivity |].
      cbn [filter]. now rewrite Hz. }
    rewrite Hnone. reflexivity.
  - rewrite !(Hcons y). destruct (same k y); rewrite IH; reflexivity.
Qed.

Lemma sort_from_stable k l : forall acc,
  Forall number acc -> Forall number l -> StronglySorted below acc ->
  filter (same k) (fold_left (fun sorted x => insert key x sorted) l acc)
  = filter (same k) acc ++ filter (same k) l.
Proof.
  induction l as [| x l IH]; intros acc Hacc Hl Hs; cbn [fold_left].
  - now rewrite app_nil_r.
  - inversion Hl; subst.
    rewrite IH; [| | assumption | now apply insert_sorted].
    + rewrite insert_stable by exact Hs. rewrite <- app_assoc. f_equal.
      cbn [filter]. now destruct (same k x).
    + eapply Permutation_Forall; [symmetry; apply insert_perm |]. now constructor.
Qed.

Lemma strongly_sorted_snoc (R : A -> A -> Prop) l x :
  StronglySorted R l -> Forall (fun y => R y x) l -> StronglySorted R (l ++ [x]).
Proof.
  intros Hs. induction Hs as [| y l Hs IH Hy]; intros Hl; simpl.
  - repeat constructor.
  - inversion Hl; subst. constructor; [now apply IH |].
    apply Forall_app. split; [exact Hy | repeat constructor; assumption].
Qed.

Lemma strongly_sorted_rev (R : A -> A -> Prop) l :
  StronglySorted R l -> StronglySorted (fun a b => R b a) (rev l).
Proof.
  intros Hs. induction Hs as [| y l Hs IH Hy]; simpl; [constructor |].
  apply strongly_sorted_snoc; [exact IH |].
  apply Forall_rev. exact Hy.
Qed.

(** After [sort(key=..., reverse=True)] no element has a larger key than one
    before it. *)
Lemma sort_reverse_sorted l :
  Forall number l ->
  StronglySorted (fun a b => (key b <=? key a)%float = true) (sort_reverse key l).
Proof.
  intros Hl. unfold sort_reverse.
  apply (strongly_sorted_rev below). apply sort_sorted. apply Forall_rev, Hl.
Qed.

(** Elements whose keys are equal stay in the order they had. *)
Lemma sort_reverse_stable k l :
  Forall number l ->
  filter (same k) (sort_reverse key l) = filter (same k) l.
Proof.
  intros Hl. unfold sort_reverse, sort.
  rewrite filter_rev, sort_from_stable;
    [| constructor | apply Forall_rev, Hl | constructor].
  cbn [filter app]. rewrite filter_rev, rev_involutive. reflexivity.
Qed.
End SortFacts.

(** ** Agency codes *)

Lemma int_of_string_str n :
  DecimalString.NilZero.int_of_string (str n) = Some (Z.to_int n).
Proof.
  unfold str. apply DecimalString.NilZero.isi.
  - destruct n; simpl; try discriminate.
    intros [= H]. now apply DecimalPos.Unsigned.to_uint_nonnil in H.
  - destruct n; simpl; try discriminate.
    intros [= H]. now apply DecimalPos.Unsigned.to_uint_nonnil in H.
Qed.

Lemma str_inj n n' : str n = str n' -> n = n'.
Proof.
  intros H. apply DecimalZ.to_int_inj.
  pose proof (int_of_string_str n) as E. rewrite H, int_of_string_str in E.
  congruence.
Qed.

Lemma lookup_title_In n m i :
  lookup_title n m = Some i -> In i (map snd m).
Proof.
  induction m as [| [k j] m IH]; simpl; [discriminate |].
  destruct (n =? k); [intros [= ->]; auto | auto].
Qed.

(** No code of the table is a fallback code. *)
Lemma table_codes_are_not_fallbacks k i n :
  lookup_title k title_agency_map = Some i -> info_code i <> ("T" ++ str n)%string.
Proof.
  intros H. apply lookup_title_In in H. revert i H. apply Forall_forall.
  unfold title_agency_map, info. cbn [map snd].
  repeat constructor; cbn [info_code append]; try discriminate.
  intros [= E]. pose proof (int_of_string_str n) as P. rewrite <- E in P. discriminate.
Qed.

(** Titles filed under a fallback code are that one title. *)
Lemma fallback_code_owner n n' :
  lookup_title n title_agency_map = None ->
  info_code (agency_of_title n') = info_code (agency_of_title n) ->
  agency_of_title n' = fallback_info n.
Proof.
  intros Hn. unfold agency_of_title at 2. rewrite Hn. cbn [fallback_info info_code].
  unfold agency_of_title. destruct (lookup_title n' title_agency_map) as [i |] eqn:Hn'.
  - intros E. now apply (table_codes_are_not_fallbacks n' i n) in E.
  - cbn [fallback_info info_code]. intros [= E]. apply str_inj in E. now subst.
Qed.

(** ** The records of one run *)

Lemma stamped_codes now tcs keys : forall k,
  map code (stamped now k (map (fun c => (c, group c tcs)) keys)) = keys.
Proof.
  induction keys as [| c keys IH]; intros k; simpl; [reflexivity |].
  now rewrite IH.
Qed.

Lemma stamped_record now tcs keys : forall k r,
  In r (stamped now k (map (fun c => (c, group c tcs)) keys)) ->
  In (code r) keys
  /\ name r = acc_name (group (code r) tcs)
  /\ regulation_size_mb r = round2 (py_sum (map size_mb (members (code r) tcs)))
  /\ titles r = map entry_of (members (code r) tcs).
Proof.
  induction keys as [| c keys IH]; intros k r; simpl; [tauto |].
  intros [<- | Hin]; [simpl; auto |].
  destruct (IH _ _ Hin) as (H1 & H2). auto.
Qed.

Lemma NoDup_map_eq {A B} (f : A -> B) l a b :
  NoDup (map f l) -> In a l -> In b l -> f a = f b -> a = b.
Proof.
  induction l as [| x l IH]; simpl; [tauto |].
  intros Hnd Ha Hb Hf. inversion Hnd as [| ? ? Hx Hnd']; subst.
  destruct Ha as [-> | Ha], Hb as [-> | Hb]; try reflexivity.
  - exfalso. apply Hx. rewrite Hf. now apply in_map.
  - exfalso. apply Hx. rewrite <- Hf. now apply in_map.
  - now apply IH.
Qed.

(** The result of the aggregator, as a list: the records of the discovered
    codes, sorted. *)
Lemma aggregator_output tcs e s :
  exists out,
    fst (map_titles_to_agencies tcs e s) = Ok out
    /\ Permutation out (stamped (clock e) (ticks s) (aggregate tcs))
    /\ NoDup (map code out)
    /\ (forall r, In r out ->
          In (code r) (map code_of tcs)
          /\ name r = acc_name (group (code r) tcs)
          /\ regulation_size_mb r
             = round2 (py_sum (map size_mb (members (code r) tcs)))
          /\ titles r = map entry_of (members (code r) tcs))
    /\ (forall c, In c (map code_of tcs) -> exists r, In r out /\ code r = c).
Proof.
  rewrite map_titles_to_agencies_run. cbn [fst]. eexists. split; [reflexivity |].
  pose proof (sort_reverse_perm regulation_size_mb
                (stamped (clock e) (ticks s) (aggregate tcs))) as Hperm.
  split; [exact Hperm |].
  rewrite aggregate_spec in *.
  set (keys := discovered (map code_of tcs)) in *.
  set (l := stamped _ _ _) in *.
  assert (Hcodes : map code l = keys) by apply stamped_codes.
  split.
  { eapply Permutation_NoDup; [symmetry; apply Permutation_map, Hperm |].
    rewrite Hcodes. apply discovered_NoDup. }
  split.
  { intros r Hin. apply (Permutation_in _ Hperm) in Hin.
    apply stamped_record in Hin as (H1 & H2).
    split; [| exact H2]. now apply discovered_In. }
  intros c Hc. apply discovered_In in Hc. fold keys in Hc.
  rewrite <- Hcodes in Hc. apply in_map_iff in Hc as (r & Hr & Hin).
  exists r. split; [| exact Hr].
  apply (Permutation_in _ (Permutation_sym Hperm)), Hin.
Qed.

Lemma stamped_stamps now items : forall k,
  map last_updated (stamped now k items)
  = map (fun i => now (k + i)%nat) (seq 0 (List.length items)).
Proof.
  induction items as [| [c d] rest IH]; intros k; simpl; [reflexivity |].
  rewrite Nat.add_0_r. f_equal. rewrite IH, <- seq_shift, map_map.
  apply map_ext. intros i. f_equal. lia.
Qed.

Lemma stamped_nth now tcs keys : forall k i r,
  nth_error (stamped now k (map (fun c => (c, group c tcs)) keys)) i = Some r ->
  nth_error keys i = Some (code r) /\ last_updated r = now (k + i)%nat.
Proof.
  induction keys as [| c keys IH]; intros k i r; simpl.
  - destruct i; discriminate.
  - destruct i as [| i]; simpl.
    + intros [= <-]. simpl. split; [reflexivity | f_equal; lia].
    + intros H. apply IH in H as [Hc ->]. split; [exact Hc | f_equal; lia].
Qed.

(** ** C8: the timestamps of one aggregation run *)

(** C8, as the code has it.  The aggregator returns without raising after
    exactly one clock reading per record: the readings [ticks s], ...,
    [ticks s + (number of records) - 1], taken while the run finalises the
    records.  Every record carries a reading of its own, the agency whose
    code is the [i]-th to appear in the input carrying the [i]-th of them,
    so that the timestamps of the records are these readings, each used
    once.  The records share one value when, and only when, the clock shows
    the same time at all of these readings. *)
Theorem last_updated_is_a_reading_of_the_run tcs e s :
  exists out,
    map_titles_to_agencies tcs e s = (Ok out, advance (List.length out) s)
    /\ (forall r, In r out ->
          exists i, (i < List.length out)%nat
                    /\ nth_error (discovered (map code_of tcs)) i = Some (code r)
                    /\ last_updated r = clock e (ticks s + i)%nat)
    /\ Permutation (map last_updated out)
         (map (fun i => clock e (ticks s + i)%nat) (seq 0 (List.length out)))
    /\ ((forall r r', In r out -> In r' out -> last_updated r = last_updated r')
        <-> (forall i j, (i < List.length out)%nat -> (j < List.length out)%nat ->
                         clock e (ticks s + i)%nat = clock e (ticks s + j)%nat)).
Proof.
  rewrite map_titles_to_agencies_run.
  set (l := stamped (clock e) (ticks s) (aggregate tcs)).
  set (out := sort_reverse regulation_size_mb l).
  assert (Hperm : Permutation out l) by apply sort_reverse_perm.
  assert (Hlen : List.length out = List.length (aggregate tcs)).
  { rewrite (Permutation_length Hperm). apply stamped_length. }
  assert (Hstamps : Permutation (map last_updated out)
            (map (fun i => clock e (ticks s + i)%nat) (seq 0 (List.length out)))).
  { rewrite Hlen. unfold l. rewrite <- stamped_stamps.
    now apply Permutation_map. }
  exists out. split; [now rewrite Hlen |].
  split; [| split; [exact Hstamps |]].
  - intros r Hin.
    apply (Permutation_in _ Hperm) in Hin.
    apply In_nth_error in Hin as [i Hi].
    assert (Hlt : (i < List.length out)%nat).
    { rewrite (Permutation_length Hperm). apply nth_error_Some. congruence. }
    exists i. split; [exact Hlt |].
    unfold l in Hi. rewrite aggregate_spec in Hi.
    now apply stamped_nth in Hi.
  - assert (Hreading : forall i, (i < List.length out)%nat ->
              exists r, In r out /\ last_updated r = clock e (ticks s + i)%nat).
    { intros i Hi.
      assert (Hin : In (clock e (ticks s + i)%nat) (map last_updated out)).
      { apply (Permutation_in _ (Permutation_sym Hstamps)).
        apply in_map_iff. exists i. split; [reflexivity |].
        apply in_seq. lia. }
      apply in_map_iff in Hin as (r & Hr & Hin). eauto. }
    assert (Hstamp : forall r, In r out ->
              exists i, (i < List.length out)%nat
                        /\ last_updated r = clock e (ticks s + i)%nat).
    { intros r Hin.
      assert (Hin' : In (last_updated r)
                (map (fun i => clock e (ticks s + i)%nat) (seq 0 (List.length out)))).
      { apply (Permutation_in _ Hstamps). now apply in_map. }
      apply in_map_iff in Hin' as (i & Hi & Hin'). apply in_seq in Hin'.
      exists i. split; [lia | now symmetry]. }
    split.
    + intros Hshared i j Hi Hj.
      destruct (Hreading i Hi) as (r & Hr & <-).
      destruct (Hreading j Hj) as (r' & Hr' & <-). now apply Hshared.
    + intros Hconst r r' Hr Hr'.
      destruct (Hstamp r Hr) as (i & Hi & ->).
      destruct (Hstamp r' Hr') as (j & Hj & ->). now apply Hconst.
Qed.

(** C8, as stated, fails: with a clock that advances between two readings,
    the two agencies of one run carry different [last_updated] values. *)
Lemma last_updated_differs_within_a_run :
  let tc n := {| title_number := n; title_name := JNull;
                 size_mb := 1.0%float; size_bytes := 1048576 |} in
  exists a b,
    fst (map_titles_to_agencies [tc 40; tc 32] Sample.healthy Sample.fresh)
    = Ok [a; b]
    /\ last_updated a <> last_updated b.
Proof.
  intros tc. do 2 eexists. split; [vm_compute; reflexivity |].
  vm_compute. discriminate.
Qed.

(** ** C3: duplicates are summed *)

(** C3.  The two inputs for title 40, of 20.0 and 25.0 MB, give exactly one
    record, with code "EPA", 45.0 MB and two titles, whatever the other
    fields of the inputs, the clock and the state are.  In general, every
    record lists all the inputs filed under its code, one entry per input
    and in input order (two inputs with one title number are filed under
    one code), and its size is the rounded sum over all of them. *)
Theorem duplicate_titles_are_summed :
  (forall e s name1 name2 bytes1 bytes2,
     exists r,
       fst (map_titles_to_agencies
              [ {| title_number := 40; title_name := name1;
                   size_mb := 20.0%float; size_bytes := bytes1 |};
                {| title_number := 40; title_name := name2;
                   size_mb := 25.0%float; size_bytes := bytes2 |} ] e s)
       = Ok [r]
       /\ code r = "EPA"%string
       /\ regulation_size_mb r = 45.0%float
       /\ List.length (titles r) = 2%nat)
  /\ (forall tcs e s,
        exists out,
          fst (map_titles_to_agencies tcs e s) = Ok out
          /\ forall r, In r out ->
               titles r = map entry_of (members (code r) tcs)
               /\ regulation_size_mb r
                  = round2 (py_sum (map te_size_mb (titles r)))).
Proof.
  split.
  - intros e s name1 name2 bytes1 bytes2.
    rewrite map_titles_to_agencies_run. cbn [fst].
    eexists. split; [vm_compute; reflexivity |].
    repeat split; vm_compute; reflexivity.
  - intros tcs e s.
    destruct (aggregator_output tcs e s) as (out & Hrun & _ & _ & Hrec & _).
    exists out. split; [exact Hrun |].
    intros r Hin. destruct (Hrec r Hin) as (_ & _ & Hsize & Htitles).
    split; [exact Htitles |].
    rewrite Hsize, Htitles, map_map. reflexivity.
Qed.

(** ** C4: nothing is dropped, and the fallback identity *)

Lemma members_In k tcs tc : In tc (members k tcs) <-> In tc tcs /\ code_of tc = k.
Proof.
  unfold members. rewrite filter_In.
  split; intros [H1 H2]; (split; [exact H1 |]); now apply String.eqb_eq.
Qed.

(** C4.  Every input element is an entry of the [titles] of one output
    record, the record of its agency code, and of no other record; a record
    lists exactly the inputs of its code.  An input whose title number the
    table does not list is filed under the record with code "T<n>" and name
    "Title <n> Agency"; the input (99, 5.0 MB) alone gives the one record
    ("T99", "Title 99 Agency", 5.0). *)
Theorem no_title_is_dropped :
  (forall tcs e s,
     exists out,
       fst (map_titles_to_agencies tcs e s) = Ok out
       /\ (forall r, In r out -> titles r = map entry_of (members (code r) tcs))
       /\ forall tc, In tc tcs ->
            exists r,
              In r out
              /\ code r = code_of tc
              /\ In (entry_of tc) (titles r)
              /\ (forall r', In r' out -> In (entry_of tc) (titles r') -> r' = r)
              /\ (lookup_title (title_number tc) title_agency_map = None ->
                  code r = ("T" ++ str (title_number tc))%string
                  /\ name r = ("Title " ++ str (title_number tc) ++ " Agency")%string))
  /\ (forall e s title_name bytes,
        lookup_title 99 title_agency_map = None
        /\ exists r,
             fst (map_titles_to_agencies
                    [ {| title_number := 99; title_name := title_name;
                         size_mb := 5.0%float; size_bytes := bytes |} ] e s)
             = Ok [r]
             /\ code r = "T99"%string
             /\ name r = "Title 99 Agency"%string
             /\ regulation_size_mb r = 5.0%float).
Proof.
  split.
  - intros tcs e s.
    destruct (aggregator_output tcs e s) as (out & Hrun & _ & Hnd & Hrec & Hall).
    exists out. split; [exact Hrun |].
    split; [intros r Hin; apply (Hrec r Hin) |].
    intros tc Htc.
    destruct (Hall (code_of tc) (in_map code_of _ _ Htc)) as (r & Hin & Hcode).
    destruct (Hrec r Hin) as (_ & Hname & _ & Htitles).
    assert (Hmem : In tc (members (code r) tcs)) by (apply members_In; auto).
    exists r. split; [exact Hin |]. split; [exact Hcode |].
    split; [rewrite Htitles; now apply in_map |].
    split.
    + intros r' Hin' Hentry.
      destruct (Hrec r' Hin') as (_ & _ & _ & Htitles').
      rewrite Htitles' in Hentry. apply in_map_iff in Hentry as (tc' & Heq & Hmem').
      apply members_In in Hmem' as [_ Hcode'].
      apply (NoDup_map_eq code out r' r Hnd Hin' Hin).
      rewrite <- Hcode', Hcode. unfold code_of.
      now rewrite (f_equal te_title_number Heq : title_number tc' = title_number tc).
    + intros Habsent. split.
      * rewrite Hcode. unfold code_of, agency_of_title. now rewrite Habsent.
      * rewrite Hname. unfold group. cbn [acc_name].
        destruct (members (code r) tcs) as [| hd rest] eqn:Hm; [contradiction |].
        assert (Hhd : In hd (members (code r) tcs)) by (rewrite Hm; now left).
        apply members_In in Hhd as [_ Hhd].
        rewrite (fallback_code_owner (title_number tc) (title_number hd) Habsent);
          [reflexivity |].
        fold (code_of hd). fold (code_of tc). congruence.
  - intros e s nm bytes. split; [reflexivity |].
    rewrite map_titles_to_agencies_run. cbn [fst].
    eexists. split; [vm_compute; reflexivity |].
    repeat split; vm_compute; reflexivity.
Qed.

(** ** C5: the agency list is well formed *)

Lemma record_sizes_are_numbers now tcs keys : forall k,
  Forall (fun tc => is_finite (size_mb tc) = true) tcs ->
  Forall (fun r => is_nan (regulation_size_mb r) = false)
         (stamped now k (map (fun c => (c, group c tcs)) keys)).
Proof.
  intros k Hfin. apply Forall_forall. intros r Hin.
  apply stamped_record in Hin as (_ & _ & -> & _).
  apply round2_not_nan, py_sum_not_nan.
  apply Forall_map. apply Forall_forall. intros tc Htc.
  apply members_In in Htc as [Htc _].
  now apply (proj1 (Forall_forall _ _) Hfin).
Qed.

(** C5.  For every input whose sizes are finite numbers, the output has
    (1) pairwise distinct agency codes, (2) in each record a size within
    0.01 of the sum of its titles' sizes, and (3) no record with a larger
    size than one before it, records of equal size standing in the order in
    which their codes were first met in the input. *)
Theorem agency_list_is_well_formed tcs e s :
  Forall (fun tc => is_finite (size_mb tc) = true) tcs ->
  let discovery := stamped (clock e) (ticks s) (aggregate tcs) in
  exists out,
    fst (map_titles_to_agencies tcs e s) = Ok out
    /\ NoDup (map code out)
    /\ (forall r, In r out ->
          within_a_cent (regulation_size_mb r) (py_sum (map te_size_mb (titles r))))
    /\ StronglySorted
         (fun a b => (regulation_size_mb b <=? regulation_size_mb a)%float = true) out
    /\ map code discovery = discovered (map code_of tcs)
    /\ forall k,
         filter (fun r => (regulation_size_mb r =? k)%float) out
         = filter (fun r => (regulation_size_mb r =? k)%float) discovery.
Proof.
  intros Hfin discovery.
  destruct (aggregator_output tcs e s) as (out & Hrun & _ & Hnd & Hrec & _).
  exists out. split; [exact Hrun |]. split; [exact Hnd |].
  split.
  { intros r Hin. destruct (Hrec r Hin) as (_ & _ & Hsize & Htitles).
    rewrite Htitles, map_map.
    change (fun x => te_size_mb (entry_of x)) with size_mb.
    rewrite Hsize. apply round2_within_a_cent. }
  rewrite map_titles_to_agencies_run in Hrun. cbn [fst] in Hrun.
  injection Hrun as <-. fold discovery.
  assert (Hnum : Forall (fun r => is_nan (regulation_size_mb r) = false) discovery).
  { unfold discovery. rewrite aggregate_spec. now apply record_sizes_are_numbers. }
  split; [now apply sort_reverse_sorted |].
  split; [unfold discovery; rewrite aggregate_spec; apply stamped_codes |].
  intros k. now apply sort_reverse_stable.
Qed.

Lemma agency_list_is_well_formed_witness :
  let tc n size := {| title_number := n; title_name := JNull;
                      size_mb := size; size_bytes := 0 |} in
  let tcs := [tc 20 1.25%float; tc 40 3.5%float; tc 29 2.25%float; tc 99 3.5%float] in
  exists out,
    fst (map_titles_to_agencies tcs Sample.healthy Sample.fresh) = Ok out
    /\ map code out = ["DOL"; "EPA"; "T99"]%string
    /\ NoDup (map code out)
    /\ StronglySorted
         (fun a b => (regulation_size_mb b <=? regulation_size_mb a)%float = true) out.
Proof.
  intros tc tcs.
  destruct (agency_list_is_well_formed tcs Sample.healthy Sample.fresh)
    as (out & Hrun & Hnd & _ & Hsorted & _).
  - repeat constructor.
  - exists out. split; [exact Hrun |].
    split; [| split; [exact Hnd | exact Hsorted]].
    vm_compute in Hrun. injection Hrun as <-. reflexivity.
Defined.

(** ** C6: the totals of a published snapshot *)

(** C6.  A cycle that gets titles and contents and whose publication goes
    through replaces the canonical file by a snapshot whose [total_agencies]
    is the length of its agency list and whose [total_size_mb] is within 0.01
    of the sum of the agencies' sizes (it is that sum rounded to two
    decimals). *)
Theorem published_totals e s titles tcs s2 :
  fetch_title_structure e (tick s) = (Ok titles, tick s) ->
  titles <> [] ->
  fetch_all_title_contents titles e (tick s) = (Ok tcs, s2) ->
  tcs <> [] ->
  publish_fails (faults e) = false ->
  exists doc,
    fst (fetch_and_update_data e s) = Ok tt
    /\ fs (snd (fetch_and_update_data e s)) = published doc
    /\ total_agencies doc = Z.of_nat (List.length (agencies doc))
    /\ total_size_mb doc = round2 (py_sum (map regulation_size_mb (agencies doc)))
    /\ within_a_cent (total_size_mb doc)
         (py_sum (map regulation_size_mb (agencies doc))).
Proof.
  intros Hlist Hne Hall Hne' Hok.
  rewrite (cycle_run e s titles tcs s2 Hlist Hne Hall Hne'), Hok.
  cbn [fst snd fs]. eexists. split; [reflexivity |]. split; [reflexivity |].
  unfold snapshot_of_cycle, final_data_of. cbn [total_agencies agencies total_size_mb].
  split; [reflexivity |]. split; [reflexivity |].
  apply round2_within_a_cent.
Qed.

Lemma published_totals_witness :
  exists doc,
    fs (snd (fetch_and_update_data Sample.healthy Sample.fresh)) = published doc
    /\ total_agencies doc = 2
    /\ within_a_cent (total_size_mb doc)
         (py_sum (map regulation_size_mb (agencies doc))).
Proof.
  destruct (fetch_all_title_contents_run [Sample.epa; Sample.dod] Sample.healthy
              (tick Sample.fresh) eq_refl) as (tcs & s2 & Hall & _).
  assert (Hne : tcs <> []).
  { vm_compute in Hall. injection Hall as <- _. discriminate. }
  destruct (published_totals Sample.healthy Sample.fresh
              [Sample.epa; Sample.dod] tcs s2)
    as (doc & _ & Hfs & Hcount & _ & Hsum);
    [reflexivity | discriminate | exact Hall | exact Hne | reflexivity |].
  exists doc. split; [exact Hfs |]. split; [| exact Hsum].
  rewrite Hcount. vm_compute in Hfs. injection Hfs as <-. reflexivity.
Defined.

(** ** C10: the statistics accessor *)

Section ExtremaFacts.
Context {A : Type} (key : A -> float).

Let number (a : A) : Prop := is_nan (key a) = false.

Lemma max_from_In l : forall best, In (max_from key best l) (best :: l).
Proof.
  induction l as [| x l IH]; intros best; simpl; [auto |].
  destruct (IH (if (key best <? key x)%float then x else best)) as [H | H]; auto.
  destruct (key best <? key x)%float; auto.
Qed.

Lemma min_from_In l : forall best, In (min_from key best l) (best :: l).
Proof.
  induction l as [| x l IH]; intros best; simpl; [auto |].
  destruct (IH (if (key x <? key best)%float then x else best)) as [H | H]; auto.
  destruct (key x <? key best)%float; auto.
Qed.

Lemma max_from_greatest l : forall best,
  Forall number (best :: l) ->
  forall a, In a (best :: l) -> (key a <=? key (max_from key best l))%float = true.
Proof.
  induction l as [| x l IH]; intros best Hnum a Ha.
  - destruct Ha as [<- | []]. simpl. apply leb_refl. now inversion Hnum.
  - inversion Hnum as [| ? ? Hb Hxl]; subst. inversion Hxl as [| ? ? Hx Hl]; subst.
    cbn [max_from]. set (best' := if (key best <? key x)%float then x else best).
    assert (Hnum' : Forall number (best' :: l)).
    { constructor; [| exact Hl]. unfold best'. now destruct (key best <? key x)%float. }
    assert (Hbest : (key best <=? key best')%float = true).
    { unfold best'. destruct (key best <? key x)%float eqn:E;
        [now apply ltb_leb | now apply leb_refl]. }
    assert (Hx' : (key x <=? key best')%float = true).
    { unfold best'. destruct (key best <? key x)%float eqn:E; [now apply leb_refl |].
      rewrite (ltb_not_leb _ _ Hb Hx) in E. now destruct (key x <=? key best)%float. }
    pose proof (IH best' Hnum') as Hrest.
    destruct Ha as [<- | [<- | Ha]].
    + eapply leb_trans; [exact Hbest | apply Hrest; now left].
    + eapply leb_trans; [exact Hx' | apply Hrest; now left].
    + apply Hrest. now right.
Qed.

Lemma min_from_least l : forall best,
  Forall number (best :: l) ->
  forall a, In a (best :: l) -> (key (min_from key best l) <=? key a)%float = true.
Proof.
  induction l as [| x l IH]; intros best Hnum a Ha.
  - destruct Ha as [<- | []]. simpl. apply leb_refl. now inversion Hnum.
  - inversion Hnum as [| ? ? Hb Hxl]; subst. inversion Hxl as [| ? ? Hx Hl]; subst.
    cbn [min_from]. set (best' := if (key x <? key best)%float then x else best).
    assert (Hnum' : Forall number (best' :: l)).
    { constructor; [| exact Hl]. unfold best'. now destruct (key x <? key best)%float. }
    assert (Hbest : (key best' <=? key best)%float = true).
    { unfold best'. destruct (key x <? key best)%float eqn:E;
        [now apply ltb_leb | now apply leb_refl]. }
    assert (Hx' : (key best' <=? key x)%float = true).
    { unfold best'. destruct (key x <? key best)%float eqn:E; [now apply leb_refl |].
      rewrite (ltb_not_leb _ _ Hx Hb) in E. now destruct (key best <=? key x)%float. }
    pose proof (IH best' Hnum') as Hrest.
    destruct Ha as [<- | [<- | Ha]].
    + eapply leb_trans; [apply Hrest; now left | exact Hbest].
    + eapply leb_trans; [apply Hrest; now left | exact Hx'].
    + apply Hrest. now right.
Qed.
End ExtremaFacts.

(** A positive count is not zero as a float. *)
Lemma of_int_nonzero n : 0 < n -> (of_int n =? 0)%float = false.
Proof.
  intros Hn. unfold of_int, int_truediv.
  replace (n <? 0) with false by (symmetry; apply Z.ltb_ge; lia).
  rewrite Z.abs_eq by lia.
  destruct (nearest_binary64_spec false n 1 ltac:(lia) ltac:(lia))
    as [[-> _] | (Hfin & Hvalid & _ & Hnear)]; [reflexivity |].
  rewrite FloatAxioms.eqb_spec, (Prim2SF_SF2Prim _ Hvalid).
  specialize (Hnear (Prim2SF 1%float) (Prim2SF_valid _) eq_refl).
  assert (Hone : magnitude (Prim2SF 1%float) = 2 ^ 1074) by (vm_compute; reflexivity).
  rewrite Hone in Hnear.
  assert (HU : 0 < 2 ^ 1074) by (apply Z.pow_pos_nonneg; lia).
  destruct (nearest_binary64 false n 1) as [sz | | | sf mf ef]; try discriminate.
  - exfalso. cbn [magnitude] in Hnear. set (U := 2 ^ 1074) in *. nia.
  - now destruct sf.
Qed.

(** C10.  On a store that holds a snapshot, [get_statistics] returns (it
    raises neither a division-by-zero nor anything else) and leaves the
    state alone.  With an empty agency list the largest and the smallest
    agency are [None] and the average is the integer 0.  With a non-empty
    list (whose sizes are numbers) the largest and the smallest agency are
    records of the list, no record has a larger, respectively a smaller,
    size, and the average is [total_size_mb] divided by the number of
    agencies, rounded to two decimals. *)
Theorem statistics_of_the_snapshot e s doc :
  data_file (fs s) = Some (Whole doc) ->
  Forall (fun a => is_nan (regulation_size_mb a) = false) (agencies doc) ->
  exists st,
    get_statistics e s = (Ok st, s)
    /\ (agencies doc = [] ->
        largest_agency st = None
        /\ smallest_agency st = None
        /\ average_size_mb st = Int 0)
    /\ (agencies doc <> [] ->
        (exists big,
            largest_agency st = Some big
            /\ In big (agencies doc)
            /\ forall a, In a (agencies doc) ->
                 (regulation_size_mb a <=? regulation_size_mb big)%float = true)
        /\ (exists small,
               smallest_agency st = Some small
               /\ In small (agencies doc)
               /\ forall a, In a (agencies doc) ->
                    (regulation_size_mb small <=? regulation_size_mb a)%float = true)
        /\ average_size_mb st
           = Float (round2 (total_size_mb doc
                            / of_int (Z.of_nat (List.length (agencies doc))))%float)).
Proof.
  intros Hfile Hnum.
  unfold get_statistics, load_data, get_fs, bind, ret. rewrite Hfile.
  destruct (agencies doc) as [| a rest] eqn:Hags.
  - eexists. split; [reflexivity |]. cbn.
    split; [auto | intros H; now contradiction H].
  - unfold lift, float_truediv.
    rewrite of_int_nonzero by (cbn [List.length]; lia).
    eexists. split; [reflexivity |].
    cbn [largest_agency smallest_agency average_size_mb].
    split; [discriminate |]. intros _.
    split; [| split; [| reflexivity]].
    + eexists. split; [reflexivity |].
      split; [apply max_from_In | now apply max_from_greatest].
    + eexists. split; [reflexivity |].
      split; [apply min_from_In | now apply min_from_least].
Qed.

Lemma statistics_of_the_snapshot_witness :
  let record c size :=
    {| name := c; code := c; regulation_size_mb := size; titles := [];
       last_updated := 0 |} in
  let doc := {| agencies := [record "EPA"%string 45.2%float;
                             record "DOD"%string 123.5%float];
                total_agencies := 2; total_size_mb := 168.7%float;
                last_sync := 0; fetch_duration_seconds := 1.5%float |} in
  let s := {| fs := {| data_file := Some (Whole doc); temp_file := None |};
              ticks := 0 |} in
  exists st,
    get_statistics Sample.healthy s = (Ok st, s)
    /\ option_map code (largest_agency st) = Some "DOD"%string
    /\ option_map code (smallest_agency st) = Some "EPA"%string
    /\ average_size_mb st = Float 84.35%float.
Proof.
  intros record doc s.
  destruct (statistics_of_the_snapshot Sample.healthy s doc)
    as (st & Hrun & _ & Hfull); [reflexivity | repeat constructor |].
  exists st. split; [exact Hrun |].
  vm_compute in Hrun. injection Hrun as <-. repeat split.
Defined.

(** * Further properties of the code *)

(** ** The cycle as a whole *)

(** Every run of the cycle is one of four: the listing is empty, the
    fan-out raises on an entry that is not an object, no content was
    fetched, or the run goes on to publish.  The first three return with
    the canonical file as it was. *)
Lemma cycle_cases e s :
  (exists s', fetch_and_update_data e s = (Ok tt, s')
              /\ data_file (fs s') = data_file (fs s))
  \/ (exists titles tcs s2,
        fetch_title_structure e (tick s) = (Ok titles, tick s)
        /\ titles <> []
        /\ fetch_all_title_contents titles e (tick s) = (Ok tcs, s2)
        /\ tcs <> []).
Proof.
  destruct (fetch_title_structure_run e (tick s)) as [titles Hlist].
  destruct titles as [| t titles].
  { left. unfold fetch_and_update_data, bind, try_except.
    rewrite utcnow_run, Hlist. cbn [is_empty]. unfold ret. eauto. }
  destruct (forallb is_object (t :: titles)) eqn:Hobj.
  2:{ left. unfold fetch_and_update_data. unfold bind at 1. rewrite utcnow_run.
      unfold try_except. unfold bind at 1. rewrite Hlist. cbn [is_empty].
      unfold bind at 1. rewrite (fetch_all_title_contents_raises _ e (tick s) Hobj).
      cbn [any_exception]. rewrite cleanup_run. eauto. }
  destruct (fetch_all_title_contents_run (t :: titles) e (tick s) Hobj)
    as (tcs & s2 & Hall & Hfs).
  destruct tcs as [| tc tcs].
  { left. unfold fetch_and_update_data, bind, try_except.
    rewrite utcnow_run, Hlist. cbn [is_empty]. rewrite Hall. cbn [is_empty].
    unfold ret. eexists. split; [reflexivity |]. cbn [fs]. now rewrite Hfs. }
  right. exists (t :: titles), (tc :: tcs), s2.
  repeat split; try discriminate; assumption.
Qed.

(** X1.  The cycle never raises, whatever the remote API, the clock and the file
    system do. *)
Theorem cycle_never_raises e s : fst (fetch_and_update_data e s) = Ok tt.
Proof.
  destruct (cycle_cases e s) as [(s' & -> & _) | (titles & tcs & s2 & H1 & H2 & H3 & H4)].
  - reflexivity.
  - now rewrite (cycle_run e s titles tcs s2 H1 H2 H3 H4).
Qed.

(** X2.  After a cycle the canonical file is what it was, or it is the whole
    document of this cycle and the temporary file is gone: no run leaves a
    partly written document at the canonical path, and a reader
    ([get_agencies]) is served what it was served before or the new
    snapshot.  The document of the cycle is [final_data]: the agencies the
    aggregator returns for the contents this run fetched, with [last_sync]
    and the duration read from the clock after the aggregation. *)
Theorem cycle_is_atomic_for_readers e s :
  let after := snd (fetch_and_update_data e s) in
  (data_file (fs after) = data_file (fs s)
   /\ fst (get_agencies e after) = fst (get_agencies e s))
  \/ (exists titles tcs s2 agencies s3,
        fetch_title_structure e (tick s) = (Ok titles, tick s)
        /\ fetch_all_title_contents titles e (tick s) = (Ok tcs, s2)
        /\ tcs <> []
        /\ map_titles_to_agencies tcs e s2 = (Ok agencies, s3)
        /\ publish_fails (faults e) = false
        /\ let doc := final_data_of agencies (clock e (ticks s3))
                         (clock e (S (ticks s3)) - clock e (ticks s)) in
           doc = snapshot_of_cycle e (ticks s) (ticks s2) tcs
           /\ fs after = published doc
           /\ fst (get_agencies e after) = Ok doc).
Proof.
  intros after. subst after.
  assert (Hread : forall s1 s2, data_file (fs s1) = data_file (fs s2) ->
            fst (get_agencies e s1) = fst (get_agencies e s2)).
  { intros s1 s2 H. unfold get_agencies, load_data, get_fs, bind, ret. rewrite H.
    destruct (data_file (fs s2)) as [[doc | doc] |]; reflexivity. }
  destruct (cycle_cases e s) as [(s' & -> & Hfs) | (titles & tcs & s2 & H1 & H2 & H3 & H4)].
  - left. cbn [snd]. split; [exact Hfs |]. now apply Hread.
  - rewrite (cycle_run e s titles tcs s2 H1 H2 H3 H4). cbn [snd fs].
    destruct (publish_fails (faults e)) eqn:Hpub.
    + left. split; [reflexivity |]. now apply Hread.
    + right. exists titles, tcs, s2. eexists. eexists.
      split; [exact H1 |]. split; [exact H3 |]. split; [exact H4 |].
      split; [apply map_titles_to_agencies_run |]. split; [reflexivity |].
      cbn [advance ticks]. repeat split.
Qed.

(** ** Sizes are never negative *)

Lemma leb_zero x : (0 <=? x)%float = SFnonneg (Prim2SF x).
Proof.
  rewrite FloatAxioms.leb_spec. change (Prim2SF 0) with (S754_zero false).
  unfold SFleb. now destruct (Prim2SF x) as [[] | [] | | [] ? ?].
Qed.

Lemma binary_round_aux_sign s m e l :
  0 <= m ->
  match binary_round_aux prec emax s m e l with
  | S754_nan => False
  | S754_zero s' | S754_infinity s' | S754_finite s' _ _ => s' = s
  end.
Proof.
  intros Hm. unfold binary_round_aux.
  pose proof (shr_fexp_nonneg m e l Hm) as H1.
  destruct (shr_fexp prec emax m e l) as [mrs' e'] eqn:E1. cbn [fst] in H1.
  pose proof (shr_fexp_nonneg _ e' loc_Exact
                (round_nearest_even_nonneg _ (loc_of_shr_record mrs') H1)) as H2.
  destruct (shr_fexp prec emax (round_nearest_even _ _) e' loc_Exact) as [mrs'' e''].
  cbn [fst] in H2.
  destruct (shr_m mrs''); [reflexivity | | lia].
  destruct (e'' <=? emax - prec); reflexivity.
Qed.

Lemma SFadd_nonneg x y :
  SFnonneg x = true -> SFnonneg y = true -> SFnonneg (SF64add x y) = true.
Proof.
  unfold SF64add, SFadd.
  destruct x as [[] | [] | | [] mx ex]; destruct y as [[] | [] | | [] my ey];
    cbn [SFnonneg negb]; try discriminate; try reflexivity.
  intros _ _. cbn [cond_Zopp]. 
  destruct (shl_align mx ex (Z.min ex ey)) as [ax ?].
  destruct (shl_align my ey (Z.min ex ey)) as [ay ?]. cbn [fst].
  change (Zpos ax + Zpos ay) with (Zpos (ax + ay)).
  unfold binary_normalize, binary_round.
  destruct (shl_align _ _ _) as [mz ez].
  pose proof (binary_round_aux_sign false (Zpos mz) ez loc_Exact ltac:(lia)) as H.
  destruct (binary_round_aux _ _ _ _ _ _); cbn [SFnonneg]; try contradiction;
    now subst.
Qed.

Lemma add_nonneg x y :
  (0 <=? x)%float = true -> (0 <=? y)%float = true -> (0 <=? x + y)%float = true.
Proof. rewrite !leb_zero, add_spec. apply SFadd_nonneg. Qed.

Lemma fold_add_nonneg l : forall acc,
  (0 <=? acc)%float = true ->
  Forall (fun x => (0 <=? x)%float = true) l ->
  (0 <=? fold_left (fun acc x => acc + x) l acc)%float = true.
Proof.
  induction l as [| x l IH]; intros acc Hacc Hl; simpl; [exact Hacc |].
  inversion Hl; subst. apply IH; [| assumption]. now apply add_nonneg.
Qed.

Lemma py_sum_nonneg l :
  Forall (fun x => (0 <=? x)%float = true) l -> (0 <=? py_sum l)%float = true.
Proof. apply fold_add_nonneg. reflexivity. Qed.

Lemma round2_nonneg x : (0 <=? x)%float = true -> (0 <=? round2 x)%float = true.
Proof.
  rewrite !leb_zero. intros Hx.
  destruct (Prim2SF x) as [s | s | | s m e] eqn:E.
  - unfold round2. now rewrite E, E.
  - unfold round2. now rewrite E, E.
  - discriminate.
  - destruct (round2_finite x s m e E) as (Hfin & Hsign & _).
    cbn [SFnonneg] in Hx.
    destruct (Prim2SF (round2 x)) as [? | ? | | ? ? ?]; cbn in *; try discriminate;
      [reflexivity | now subst].
Qed.

Lemma int_truediv_nonneg a b :
  0 <= a -> 0 < b -> (0 <=? int_truediv a b)%float = true.
Proof.
  intros Ha Hb. rewrite leb_zero. unfold int_truediv.
  replace (a <? 0) with false by (symmetry; apply Z.ltb_ge; lia).
  rewrite Z.abs_eq by lia.
  destruct (nearest_binary64_spec false a b Ha Hb)
    as [[-> _] | (Hfin & Hvalid & Hsign & _)]; [reflexivity |].
  rewrite (Prim2SF_SF2Prim _ Hvalid).
  destruct (nearest_binary64 false a b); cbn in *; try discriminate;
    [reflexivity | now subst].
Qed.

(** ** The remote catalogue *)

(** X3.  [fetch_title_structure] never raises and does not touch the state; the
    listing is empty when the request raises, when the status is not 200 and
    when reading or decoding the body raises, and it is the decoded [titles]
    member otherwise. *)
Theorem listing_or_nothing e s :
  exists titles,
    fetch_title_structure e s = (Ok titles, s)
    /\ (forall x, titles_endpoint e = Raise x -> titles = [])
    /\ (forall status body,
          titles_endpoint e = Ok (status, body) -> status <> 200 -> titles = [])
    /\ (forall x, titles_endpoint e = Ok (200, Raise x) -> titles = [])
    /\ (forall listed, titles_endpoint e = Ok (200, Ok listed) -> titles = listed).
Proof.
  unfold fetch_title_structure, try_except, bind, ask, lift, ret.
  destruct (titles_endpoint e) as [[status body] | x]; simpl.
  - destruct (Z.eqb_spec status 200) as [-> | Hstatus]; simpl.
    + destruct body as [listed | x]; simpl.
      * eexists. split; [reflexivity |]. repeat split; congruence.
      * exists []. split; [destruct x; reflexivity |]. repeat split; congruence.
    + exists []. split; [reflexivity |]. repeat split; congruence.
  - exists []. split; [destruct x; reflexivity |]. repeat split; congruence.
Qed.

Lemma listing_or_nothing_witness :
  fetch_title_structure Sample.unlisted Sample.fresh = (Ok [], Sample.fresh)
  /\ fetch_title_structure Sample.healthy Sample.fresh
     = (Ok [Sample.epa; Sample.dod], Sample.fresh).
Proof.
  destruct (listing_or_nothing Sample.unlisted Sample.fresh)
    as (l1 & Hrun1 & _ & Hstatus & _).
  destruct (listing_or_nothing Sample.healthy Sample.fresh)
    as (l2 & Hrun2 & _ & _ & _ & Hlisted).
  rewrite Hrun1, Hrun2.
  rewrite (Hstatus 500 (Ok []) eq_refl) by discriminate.
  rewrite (Hlisted [Sample.epa; Sample.dod] eq_refl).
  split; reflexivity.
Defined.

(** What a content fetch returns does not depend on the state it runs in. *)
Lemma fetch_title_content_outcome n i e s s' :
  fst (fetch_title_content n i e s) = fst (fetch_title_content n i e s').
Proof.
  unfold fetch_title_content, try_except, bind, ask, lift, ret, utcnow; simpl.
  destruct (content_endpoint e i n) as [[status body] | x]; simpl; [| now destruct x].
  destruct (negb (status =? 200)); simpl; [reflexivity |].
  destruct body as [content | x]; simpl; [| now destruct x].
  destruct (json_loads e content) as [data | x]; simpl; [| now destruct x].
  destruct (json_get data _ _) as [nm | x]; simpl; [reflexivity | now destruct x].
Qed.

(** X4.  A response with status 200 whose body decodes: the result is decided by
    the decoded document.  A JSON object gives the size record, named by its
    ["title"] member or, without one, "Title <n>"; any other JSON value gives
    [None], although the body did parse.  The size is the byte count of the
    body over [1024 * 1024], rounded to two decimals, and is never negative. *)
Theorem decoded_body_decides n i e s content data :
  content_endpoint e i n = Ok (200, Ok content) ->
  json_loads e content = Ok data ->
  let size_bytes := Z.of_nat (List.length content) in
  let size := round2 (int_truediv size_bytes (1024 * 1024)) in
  fst (fetch_title_content n i e s)
  = Ok match data with
       | JObj members =>
           Some {| title_number := n;
                   title_name :=
                     match member "title" members with
                     | Some v => v
                     | None => JStr ("Title " ++ str n)
                     end;
                   size_mb := size;
                   size_bytes := size_bytes |}
       | _ => None
       end
  /\ (0 <=? size)%float = true.
Proof.
  intros Hresp Hjson size_bytes size. split.
  - unfold fetch_title_content, try_except, bind, ask, lift, ret, utcnow; simpl.
    rewrite Hresp; simpl. rewrite Hjson; simpl.
    destruct data as [| | | | | | mem]; simpl; try reflexivity.
    destruct (member "title" mem); reflexivity.
  - apply round2_nonneg, int_truediv_nonneg; unfold size_bytes; lia.
Qed.

Lemma decoded_body_decides_witness :
  fst (fetch_title_content 40 0 Sample.healthy Sample.fresh)
  = Ok (Some {| title_number := 40; title_name := JStr "Title 40";
                size_mb := 0.0%float; size_bytes := 2 |}).
Proof.
  destruct (decoded_body_decides 40 0 Sample.healthy Sample.fresh Sample.body (JObj []))
    as [H _]; [reflexivity | reflexivity |].
  rewrite H. vm_compute. reflexivity.
Defined.

Lemma fetch_title_content_number n i e s tc :
  fst (fetch_title_content n i e s) = Ok (Some tc) -> title_number tc = n.
Proof.
  unfold fetch_title_content, try_except, bind, ask, lift, ret, utcnow; simpl.
  destruct (content_endpoint e i n) as [[status body] | x]; simpl;
    [| destruct x; discriminate].
  destruct (negb (status =? 200)); simpl; [discriminate |].
  destruct body as [content | x]; simpl; [| destruct x; discriminate].
  destruct (json_loads e content) as [data | x]; simpl; [| destruct x; discriminate].
  destruct (json_get data _ _) as [nm | x]; simpl; [| destruct x; discriminate].
  now intros [= <-].
Qed.

Lemma gather_spec numbers : forall i e s s0,
  gather i numbers e s
  = (Ok (map (fun '(j, n) => fst (fetch_title_content n j e s0))
           (combine (seq i (List.length numbers)) numbers)),
     advance (List.length numbers) s).
Proof.
  induction numbers as [| n rest IH]; intros i e s s0; simpl.
  - unfold ret, advance. now destruct s.
  - unfold bind, attempt.
    destruct (fetch_title_content_run n i e s) as [r Hr].
    rewrite (fetch_title_content_outcome n i e s0 s), Hr. cbn [fst].
    rewrite (IH (S i) e (tick s) s0). unfold ret, advance, tick; simpl.
    do 3 f_equal. lia.
Qed.

Lemma listed_numbers_In titles n :
  In n (listed_numbers titles) <->
  n <> 0 /\ exists t, In (Object t) titles /\ number t = Some n.
Proof.
  unfold listed_numbers. rewrite in_flat_map. split.
  - intros ([t |] & Ht & Hn); [| contradiction].
    destruct (number t) as [m |] eqn:E; [| contradiction].
    destruct (Z.eqb_spec m 0); [contradiction |].
    destruct Hn as [<- | []]. eauto.
  - intros (Hn & t & Ht & E). exists (Object t). split; [exact Ht |]. rewrite E.
    destruct (Z.eqb_spec n 0); [contradiction | now left].
Qed.

Lemma listed_numbers_length titles :
  (List.length (listed_numbers titles) <= List.length titles)%nat.
Proof.
  induction titles as [| [t |] titles IH]; simpl; [lia | | lia].
  rewrite length_app.
  destruct (number t) as [m |]; [destruct (m =? 0) |]; simpl; lia.
Qed.

Lemma successes_length rs : (List.length (successes rs) <= List.length rs)%nat.
Proof.
  induction rs as [| r rs IH]; simpl; [lia |].
  rewrite length_app. destruct r as [[tc |] | x]; simpl; lia.
Qed.

(** X5.  The fan-out on a listing whose title objects hold an integer number
    or none.  It raises exactly when the listing holds an entry that is
    not a JSON object: [AttributeError] then leaves the function before any
    request is sent.  On a listing of title objects it does not raise and
    leaves the file system alone: one request goes out per title whose
    number is present and not 0, and the result is what those requests
    returned, in listing order, so a request that fails takes nothing away
    from the others.  Every content returned belongs to a listed title, and
    there are at most as many as titles. *)
Theorem fan_out_keeps_what_succeeded titles e s :
  let numbers := listed_numbers titles in
  let requests := combine (seq 0 (List.length numbers)) numbers in
  let tcs := successes (map (fun '(i, n) => fst (fetch_title_content n i e s)) requests) in
  fetch_all_title_contents titles e s
  = (if forallb is_object titles
     then (Ok tcs, advance (List.length numbers) s)
     else (Raise AttributeError, s))
  /\ (List.length tcs <= List.length titles)%nat
  /\ Forall (fun tc =>
               title_number tc <> 0
               /\ exists t, In (Object t) titles
                            /\ number t = Some (title_number tc)) tcs.
Proof.
  intros numbers requests tcs.
  split; [| split].
  - unfold fetch_all_title_contents, bind, lift.
    rewrite task_numbers_spec.
    destruct (forallb is_object titles); [| reflexivity].
    cbn [app].
    rewrite (gather_spec (listed_numbers titles) 0%nat e s s). reflexivity.
  - unfold tcs. etransitivity; [apply successes_length |].
    rewrite length_map. unfold requests. rewrite length_combine, length_seq.
    rewrite Nat.min_id. apply listed_numbers_length.
  - apply Forall_forall. intros tc Htc.
    unfold tcs, successes in Htc. apply in_flat_map in Htc as (r & Hr & Htc).
    apply in_map_iff in Hr as ([i n] & <- & Hin).
    destruct (fst (fetch_title_content n i e s)) as [[tc' |] | x] eqn:E;
      try contradiction.
    destruct Htc as [<- | []].
    apply fetch_title_content_number in E. rewrite E.
    apply listed_numbers_In. apply in_combine_r in Hin. exact Hin.
Qed.

(** A listing with an entry that is not an object: the fan-out raises
    before the request for the first title is sent, and the cycle, which
    catches the exception, returns with the store as it was. *)
Example a_listing_with_a_stray_entry :
  let e := Sample.world (Ok (200, Ok [Sample.epa; NotAnObject])) Sample.no_faults in
  fetch_all_title_contents [Sample.epa; NotAnObject] e (tick Sample.fresh)
  = (Raise AttributeError, tick Sample.fresh)
  /\ fetch_and_update_data e Sample.fresh = (Ok tt, tick Sample.fresh).
Proof. split; reflexivity. Qed.

(** ** More on the aggregator *)

Lemma list_sum_perm {A} (f : A -> nat) l l' :
  Permutation l l' -> list_sum (map f l) = list_sum (map f l').
Proof.
  induction 1; simpl; lia.
Qed.

Lemma indicator_sum c keys :
  NoDup keys -> In c keys ->
  list_sum (map (fun k => if String.eqb c k then 1 else 0)%nat keys) = 1%nat.
Proof.
  induction keys as [| k keys IH]; simpl; [tauto |].
  intros Hnd Hin. inversion Hnd as [| ? ? Hk Hnd']; subst.
  destruct (String.eqb_spec c k) as [-> | Hne].
  - assert (list_sum (map (fun k0 => if String.eqb k k0 then 1 else 0)%nat keys) = 0%nat)
      as ->; [| reflexivity].
    clear - Hk. induction keys as [| k' keys IH]; simpl; [reflexivity |].
    destruct (String.eqb_spec k k') as [-> | _]; [exfalso; apply Hk; now left |].
    apply IH. intros H. apply Hk. now right.
  - destruct Hin as [-> | Hin]; [contradiction |]. now rewrite IH.
Qed.

(** The inputs are split among the codes: the groups together have as many
    members as there are inputs. *)
Lemma members_partition keys tcs :
  NoDup keys ->
  (forall tc, In tc tcs -> In (code_of tc) keys) ->
  list_sum (map (fun k => List.length (members k tcs)) keys) = List.length tcs.
Proof.
  intros Hnd. induction tcs as [| tc tcs IH]; intros Hall.
  - clear. induction keys as [| k keys IH]; simpl; [reflexivity | exact IH].
  - assert (Hsplit :
      list_sum (map (fun k => List.length (members k (tc :: tcs))) keys)
      = (list_sum (map (fun k => if String.eqb (code_of tc) k then 1 else 0) keys)
         + list_sum (map (fun k => List.length (members k tcs)) keys))%nat).
    { clear.
      assert (Hcons : forall a l, list_sum (a :: l) = (a + list_sum l)%nat)
        by reflexivity.
      induction keys as [| k keys IH]; [reflexivity |].
      rewrite !map_cons, !Hcons, IH. unfold members at 1. cbn [filter].
      fold (members k tcs).
      destruct (String.eqb (code_of tc) k); cbn [List.length]; lia. }
    rewrite Hsplit, IH by (intros; apply Hall; now right).
    rewrite (indicator_sum (code_of tc) keys Hnd (Hall tc (or_introl eq_refl))).
    reflexivity.
Qed.

Lemma stamped_titles_sum now tcs keys : forall k,
  list_sum (map (fun r => List.length (titles r))
              (stamped now k (map (fun c => (c, group c tcs)) keys)))
  = list_sum (map (fun c => List.length (members c tcs)) keys).
Proof.
  assert (Hcons : forall a l, list_sum (a :: l) = (a + list_sum l)%nat)
    by reflexivity.
  induction keys as [| c keys IH]; intros k; [reflexivity |].
  cbn [map stamped]. rewrite !Hcons, IH. cbn [titles group acc_titles].
  now rewrite length_map.
Qed.

Lemma discovered_length codes :
  (List.length (discovered codes) <= List.length codes)%nat.
Proof.
  induction codes as [| c codes IH] using rev_ind; [simpl; lia |].
  rewrite discovered_snoc, length_app. unfold discover.
  destruct (existsb _ _); [| rewrite length_app]; simpl; lia.
Qed.

(** X6.  The aggregator returns without raising and without touching the file
    system, after one clock reading per record.  It returns no record only
    for no input and never more records than inputs; no record has an empty
    [titles] list, and the [titles] lists together have exactly as many
    entries as there are inputs. *)
Theorem aggregator_keeps_count tcs e s :
  exists out,
    map_titles_to_agencies tcs e s = (Ok out, advance (List.length out) s)
    /\ (out = [] <-> tcs = [])
    /\ (List.length out <= List.length tcs)%nat
    /\ (forall r, In r out -> titles r <> [])
    /\ list_sum (map (fun r => List.length (titles r)) out) = List.length tcs.
Proof.
  rewrite map_titles_to_agencies_run.
  set (l := stamped (clock e) (ticks s) (aggregate tcs)).
  pose proof (sort_reverse_perm regulation_size_mb l) as Hperm.
  assert (Hlen : List.length (sort_reverse regulation_size_mb l)
                 = List.length (discovered (map code_of tcs))).
  { rewrite (Permutation_length Hperm). unfold l.
    rewrite stamped_length, aggregate_spec. apply length_map. }
  assert (Hagg : List.length (aggregate tcs) = List.length (discovered (map code_of tcs)))
    by (rewrite aggregate_spec; apply length_map).
  eexists. split; [rewrite Hlen, <- Hagg; reflexivity |].
  pose proof (discovered_length (map code_of tcs)) as Hle. rewrite length_map in Hle.
  split; [| split; [lia | split]].
  - split.
    + intros Hnil. rewrite Hnil in Hlen. simpl in Hlen.
      destruct tcs as [| tc tcs]; [reflexivity | exfalso].
      assert (Hin : In (code_of tc) (discovered (map code_of (tc :: tcs))))
        by (apply discovered_In; now left).
      destruct (discovered _); [contradiction | discriminate].
    + intros ->. reflexivity.
  - intros r Hin. apply (Permutation_in _ Hperm) in Hin. unfold l in Hin.
    rewrite aggregate_spec in Hin. apply stamped_record in Hin as (Hc & _ & _ & ->).
    rewrite discovered_In in Hc. intros Hnil. apply map_eq_nil in Hnil.
    apply members_nil_iff in Hnil. contradiction.
  - rewrite (list_sum_perm _ _ _ Hperm). unfold l. rewrite aggregate_spec.
    rewrite stamped_titles_sum. apply members_partition; [apply discovered_NoDup |].
    intros tc Htc. apply discovered_In. now apply in_map.
Qed.

Lemma filter_perm {A} (f : A -> bool) l l' :
  Permutation l l' -> Permutation (filter f l) (filter f l').
Proof.
  induction 1 as [| x l l' _ IH | x y l | l l' l'' _ IH1 _ IH2]; simpl.
  - constructor.
  - destruct (f x); [now constructor | exact IH].
  - destruct (f x), (f y); try reflexivity. apply perm_swap.
  - now transitivity (filter f l').
Qed.

(** X7.  An agency is named after the first input filed under its code.  Two
    titles that share a code but not a name (20 and 29 are both "DOL") so
    give an agency whose name depends on which of them came first. *)
Theorem agency_is_named_after_its_first_title :
  (forall tcs e s,
     exists out,
       fst (map_titles_to_agencies tcs e s) = Ok out
       /\ forall r, In r out ->
            exists tc rest,
              members (code r) tcs = tc :: rest
              /\ name r = info_name (agency_of_title (title_number tc)))
  /\ (forall e s,
        let tc n := {| title_number := n; title_name := JNull;
                       size_mb := 1.0%float; size_bytes := 1048576 |} in
        exists a b,
          fst (map_titles_to_agencies [tc 20; tc 29] e s) = Ok [a]
          /\ fst (map_titles_to_agencies [tc 29; tc 20] e s) = Ok [b]
          /\ code a = "DOL"%string /\ code b = "DOL"%string
          /\ name a = "Employees' Benefits"%string
          /\ name b = "Labor"%string).
Proof.
  split.
  - intros tcs e s.
    destruct (aggregator_output tcs e s) as (out & Hrun & _ & _ & Hrec & _).
    exists out. split; [exact Hrun |].
    intros r Hin. destruct (Hrec r Hin) as (Hc & Hname & _).
    rewrite Hname. unfold group. cbn [acc_name].
    destruct (members (code r) tcs) as [| tc rest] eqn:Hm.
    + apply members_nil_iff in Hm. contradiction.
    + exists tc, rest. split; reflexivity.
  - intros e s tc. rewrite !map_titles_to_agencies_run. cbn [fst].
    do 2 eexists. split; [vm_compute; reflexivity |].
    split; [vm_compute; reflexivity |]. repeat split.
Qed.

(** X8.  The agencies do not depend on the order of the input: a permuted input
    gives the same set of codes, and under each code the same titles up to
    order. *)
Theorem input_order_does_not_change_the_agencies tcs tcs' e s e' s' :
  Permutation tcs tcs' ->
  exists out out',
    fst (map_titles_to_agencies tcs e s) = Ok out
    /\ fst (map_titles_to_agencies tcs' e' s') = Ok out'
    /\ Permutation (map code out) (map code out')
    /\ forall r r', In r out -> In r' out' -> code r = code r' ->
         Permutation (titles r) (titles r').
Proof.
  intros Hperm.
  destruct (aggregator_output tcs e s) as (out & Hrun & _ & Hnd & Hrec & Hall).
  destruct (aggregator_output tcs' e' s') as (out' & Hrun' & _ & Hnd' & Hrec' & Hall').
  exists out, out'. split; [exact Hrun |]. split; [exact Hrun' |].
  assert (Hcodes : forall c, In c (map code_of tcs) <-> In c (map code_of tcs')).
  { intros c. split; apply Permutation_in; [| symmetry]; now apply Permutation_map. }
  split.
  - apply NoDup_Permutation; [exact Hnd | exact Hnd' |].
    intros c. rewrite !in_map_iff. split.
    + intros (r & <- & Hin). destruct (Hrec r Hin) as (Hc & _).
      apply Hcodes in Hc. destruct (Hall' _ Hc) as (r' & Hin' & Hc'). eauto.
    + intros (r' & <- & Hin'). destruct (Hrec' r' Hin') as (Hc & _).
      apply Hcodes in Hc. destruct (Hall _ Hc) as (r & Hin & Hc'). eauto.
  - intros r r' Hin Hin' Hc.
    destruct (Hrec r Hin) as (_ & _ & _ & ->).
    destruct (Hrec' r' Hin') as (_ & _ & _ & ->).
    rewrite Hc. apply Permutation_map. unfold members. now apply filter_perm.
Qed.

Lemma input_order_does_not_change_the_agencies_witness :
  let tc n := {| title_number := n; title_name := JNull;
                 size_mb := 1.0%float; size_bytes := 1048576 |} in
  exists out out',
    fst (map_titles_to_agencies [tc 40; tc 7] Sample.healthy Sample.fresh) = Ok out
    /\ fst (map_titles_to_agencies [tc 7; tc 40] Sample.healthy Sample.fresh) = Ok out'
    /\ Permutation (map code out) (map code out').
Proof.
  intros tc.
  destruct (input_order_does_not_change_the_agencies
              [tc 40; tc 7] [tc 7; tc 40] Sample.healthy Sample.fresh
              Sample.healthy Sample.fresh (perm_swap _ _ _))
    as (out & out' & H1 & H2 & H3 & _).
  exists out, out'. auto.
Defined.

(** ** What a published snapshot looks like *)

Lemma fetch_title_content_size n i e s tc :
  fst (fetch_title_content n i e s) = Ok (Some tc) ->
  (0 <=? size_mb tc)%float = true /\ 0 <= size_bytes tc.
Proof.
  unfold fetch_title_content, try_except, bind, ask, lift, ret, utcnow; simpl.
  destruct (content_endpoint e i n) as [[status body] | x]; simpl;
    [| destruct x; discriminate].
  destruct (negb (status =? 200)); simpl; [discriminate |].
  destruct body as [content | x]; simpl; [| destruct x; discriminate].
  destruct (json_loads e content) as [data | x]; simpl; [| destruct x; discriminate].
  destruct (json_get data _ _) as [nm | x]; simpl; [| destruct x; discriminate].
  intros [= <-]. cbn [size_mb size_bytes]. split; [| lia].
  apply round2_nonneg, int_truediv_nonneg; lia.
Qed.

Lemma fetch_all_title_contents_spec titles e s tcs s' :
  fetch_all_title_contents titles e s = (Ok tcs, s') ->
  s' = advance (List.length (listed_numbers titles)) s
  /\ Forall (fun tc => (0 <=? size_mb tc)%float = true /\ 0 <= size_bytes tc) tcs.
Proof.
  unfold fetch_all_title_contents, bind, lift.
  rewrite task_numbers_spec.
  destruct (forallb is_object titles); [| discriminate]. cbn [app].
  rewrite (gather_spec (listed_numbers titles) 0%nat e s s). unfold ret.
  intros [= <- <-]. split; [reflexivity |].
  apply Forall_forall. intros tc Htc.
  unfold successes in Htc. apply in_flat_map in Htc as (r & Hr & Htc).
  apply in_map_iff in Hr as ([i n] & <- & _).
  destruct (fst (fetch_title_content n i e s)) as [[tc' |] | x] eqn:E;
    try contradiction.
  destruct Htc as [<- | []]. now apply fetch_title_content_size in E.
Qed.

Lemma stamped_nonneg now tcs : forall k,
  Forall (fun tc => (0 <=? size_mb tc)%float = true) tcs ->
  Forall (fun r =>
            (0 <=? regulation_size_mb r)%float = true
            /\ titles r <> []
            /\ Forall (fun t => (0 <=? te_size_mb t)%float = true) (titles r))
         (stamped now k (map (fun c => (c, group c tcs))
                           (discovered (map code_of tcs)))).
Proof.
  intros k Hpos. apply Forall_forall. intros r Hin.
  apply stamped_record in Hin as (Hc & _ & Hsize & Htitles).
  rewrite discovered_In in Hc.
  assert (Hmem : Forall (fun tc => (0 <=? size_mb tc)%float = true)
                        (members (code r) tcs)).
  { apply Forall_forall. intros tc Htc. apply members_In in Htc as [Htc _].
    now apply (proj1 (Forall_forall _ _) Hpos). }
  split; [| split].
  - rewrite Hsize. apply round2_nonneg, py_sum_nonneg. now apply Forall_map.
  - rewrite Htitles. intros Hnil. apply map_eq_nil in Hnil.
    apply members_nil_iff in Hnil. contradiction.
  - rewrite Htitles. apply Forall_map. exact Hmem.
Qed.

(** X9.  A cycle that publishes writes a document the API's response model
    accepts: at least one agency, pairwise distinct codes, no negative size,
    in the records, in their titles or in the total, and no agency without a
    title. *)
Theorem published_snapshot_is_valid e s listing tcs s2 :
  fetch_title_structure e (tick s) = (Ok listing, tick s) ->
  listing <> [] ->
  fetch_all_title_contents listing e (tick s) = (Ok tcs, s2) ->
  tcs <> [] ->
  publish_fails (faults e) = false ->
  exists doc,
    fs (snd (fetch_and_update_data e s)) = published doc
    /\ 1 <= total_agencies doc
    /\ (0 <=? total_size_mb doc)%float = true
    /\ NoDup (map code (agencies doc))
    /\ Forall (fun a =>
                 (0 <=? regulation_size_mb a)%float = true
                 /\ titles a <> []
                 /\ Forall (fun t => (0 <=? te_size_mb t)%float = true) (titles a))
              (agencies doc).
Proof.
  intros Hlist Hne Hall Hne' Hok.
  rewrite (cycle_run e s listing tcs s2 Hlist Hne Hall Hne'), Hok. cbn [snd fs].
  eexists. split; [reflexivity |].
  apply fetch_all_title_contents_spec in Hall as [_ Hsizes].
  assert (Hpos : Forall (fun tc => (0 <=? size_mb tc)%float = true) tcs)
    by (eapply Forall_impl; [| exact Hsizes]; now intros tc [H _]).
  unfold snapshot_of_cycle, final_data_of.
  cbn [total_agencies total_size_mb agencies].
  set (l := stamped (clock e) (ticks s2) (aggregate tcs)).
  pose proof (sort_reverse_perm regulation_size_mb l) as Hperm.
  assert (Hl : Forall (fun a =>
                 (0 <=? regulation_size_mb a)%float = true
                 /\ titles a <> []
                 /\ Forall (fun t => (0 <=? te_size_mb t)%float = true) (titles a)) l).
  { unfold l. rewrite aggregate_spec. now apply stamped_nonneg. }
  assert (Hsorted := Permutation_Forall (Permutation_sym Hperm) Hl).
  split; [| split; [| split; [| exact Hsorted]]].
  - rewrite (Permutation_length Hperm). unfold l.
    rewrite stamped_length, aggregate_spec, length_map.
    destruct tcs as [| tc tcs]; [congruence |].
    assert (Hin : In (code_of tc) (discovered (map code_of (tc :: tcs))))
      by (apply discovered_In; now left).
    destruct (discovered _); [contradiction | cbn [List.length]; lia].
  - apply round2_nonneg, py_sum_nonneg, Forall_map.
    eapply Forall_impl; [| exact Hsorted]. now intros a [H _].
  - eapply Permutation_NoDup; [symmetry; apply Permutation_map, Hperm |].
    unfold l. rewrite aggregate_spec, stamped_codes. apply discovered_NoDup.
Qed.

Lemma published_snapshot_is_valid_witness :
  exists doc,
    fs (snd (fetch_and_update_data Sample.healthy Sample.fresh)) = published doc
    /\ 1 <= total_agencies doc
    /\ (0 <=? total_size_mb doc)%float = true.
Proof.
  destruct (fetch_all_title_contents_run [Sample.epa; Sample.dod] Sample.healthy
              (tick Sample.fresh) eq_refl) as (tcs & s2 & Hall & _).
  assert (Hne : tcs <> []).
  { vm_compute in Hall. injection Hall as <- _. discriminate. }
  destruct (published_snapshot_is_valid Sample.healthy Sample.fresh
              [Sample.epa; Sample.dod] tcs s2)
    as (doc & Hfs & Hcount & Htotal & _);
    [reflexivity | discriminate | exact Hall | exact Hne | reflexivity |].
  exists doc. auto.
Defined.

(** X10.  With a clock that never goes back, the timestamps of a published
    snapshot are in order: every agency's [last_updated] lies between the
    start of the cycle and [last_sync], and the duration is not negative. *)
Theorem timestamps_are_in_order e s listing tcs s2 :
  fetch_title_structure e (tick s) = (Ok listing, tick s) ->
  listing <> [] ->
  fetch_all_title_contents listing e (tick s) = (Ok tcs, s2) ->
  tcs <> [] ->
  publish_fails (faults e) = false ->
  (forall i j, (i <= j)%nat -> clock e i <= clock e j) ->
  exists doc,
    fs (snd (fetch_and_update_data e s)) = published doc
    /\ Forall (fun a => clock e (ticks s) <= last_updated a <= last_sync doc)
              (agencies doc)
    /\ (0 <=? fetch_duration_seconds doc)%float = true.
Proof.
  intros Hlist Hne Hall Hne' Hok Hmono.
  rewrite (cycle_run e s listing tcs s2 Hlist Hne Hall Hne'), Hok. cbn [snd fs].
  eexists. split; [reflexivity |].
  apply fetch_all_title_contents_spec in Hall as [-> _].
  unfold snapshot_of_cycle, final_data_of.
  cbn [agencies last_sync fetch_duration_seconds advance tick ticks].
  set (k := (List.length (listed_numbers listing) + S (ticks s))%nat).
  set (l := stamped (clock e) k (aggregate tcs)).
  split.
  - apply Forall_forall. intros a Ha.
    apply (Permutation_in _ (sort_reverse_perm regulation_size_mb l)) in Ha.
    apply stamped_last_updated in Ha as (i & Hi & ->).
    split; apply Hmono; unfold k; lia.
  - apply int_truediv_nonneg; [| lia].
    assert (clock e (ticks s) <= clock e (S (List.length (aggregate tcs) + k)))
      by (apply Hmono; unfold k; lia).
    lia.
Qed.

Lemma timestamps_are_in_order_witness :
  exists doc,
    fs (snd (fetch_and_update_data Sample.healthy Sample.fresh)) = published doc
    /\ Forall (fun a => 0 <= last_updated a <= last_sync doc) (agencies doc).
Proof.
  destruct (fetch_all_title_contents_run [Sample.epa; Sample.dod] Sample.healthy
              (tick Sample.fresh) eq_refl) as (tcs & s2 & Hall & _).
  assert (Hne : tcs <> []).
  { vm_compute in Hall. injection Hall as <- _. discriminate. }
  destruct (timestamps_are_in_order Sample.healthy Sample.fresh
              [Sample.epa; Sample.dod] tcs s2)
    as (doc & Hfs & Htimes & _);
    [reflexivity | discriminate | exact Hall | exact Hne | reflexivity | |].
  - intros i j Hij. unfold Sample.healthy, Sample.world, Sample.ticking. cbn [clock]. lia.
  - exists doc. split; [exact Hfs | exact Htimes].
Defined.

(** ** The read accessors *)

(** X12.  Without a readable document at the canonical path (the file is missing
    or does not parse) the three data accessors answer 503 and the health
    check reports "degraded" with no update time; none of them touches the
    file system. *)
Theorem readers_without_data e s str_upper q :
  (forall doc, data_file (fs s) <> Some (Whole doc)) ->
  get_agencies e s = (Raise (HTTPException 503), s)
  /\ get_agency str_upper q e s = (Raise (HTTPException 503), s)
  /\ get_statistics e s = (Raise (HTTPException 503), s)
  /\ exists h,
       health_check e s = (Ok h, tick s)
       /\ health_status h = "degraded"%string
       /\ last_data_update h = None.
Proof.
  intros Hnone.
  unfold get_agencies, get_agency, get_statistics, health_check, load_data, get_fs,
    bind, ret, raise, utcnow.
  destruct (data_file (fs s)) as [[doc | doc] |] eqn:E;
    [now contradiction (Hnone doc) | |];
    (repeat split; eexists; split; [reflexivity | split; reflexivity]).
Qed.

Lemma readers_without_data_witness :
  get_agencies Sample.healthy Sample.fresh
  = (Raise (HTTPException 503), Sample.fresh).
Proof.
  apply (readers_without_data Sample.healthy Sample.fresh upper "EPA").
  intros doc. discriminate.
Defined.

Lemma leb_numbers x y :
  (x <=? y)%float = true -> is_nan x = false /\ is_nan y = false.
Proof.
  rewrite FloatAxioms.leb_spec, !is_nan_false. unfold SFleb. intros H.
  split; intros Hn; rewrite Hn in H; [discriminate |].
  now destruct (Prim2SF x).
Qed.

Lemma max_from_head {A} (key : A -> float) l : forall best,
  Forall (fun x => (key x <=? key best)%float = true) l ->
  max_from key best l = best.
Proof.
  induction l as [| x l IH]; intros best Hl; simpl; [reflexivity |].
  inversion Hl as [| ? ? Hx Hl']; subst.
  destruct (key best <? key x)%float eqn:Hlt.
  - apply ltb_not_geb in Hlt. congruence.
  - now apply IH.
Qed.

Lemma last_cons_default {A} (l : list A) : forall a b,
  last (b :: l) a = last l b.
Proof.
  induction l as [| c l IH]; intros a b; [reflexivity |].
  change (last (b :: c :: l) a) with (last (c :: l) a). now rewrite !IH.
Qed.

Lemma last_In {A} (l : list A) : forall b, In (last l b) (b :: l).
Proof.
  induction l as [| c l IH]; intros b; [now left |].
  rewrite last_cons_default. right. apply IH.
Qed.

Lemma sorted_last {A} (R : A -> A -> Prop) l : forall a x,
  StronglySorted R (a :: l) -> In x (a :: l) ->
  x = last l a \/ R x (last l a).
Proof.
  induction l as [| b l IH]; intros a x Hs Hin.
  - destruct Hin as [<- | []]. now left.
  - inversion Hs as [| ? ? Hs' Ha]; subst. rewrite last_cons_default.
    destruct Hin as [<- | Hin].
    + right. apply (proj1 (Forall_forall _ _) Ha), last_In.
    + now apply IH.
Qed.

(** X13.  On a document whose agencies are sorted by descending size, as the
    cycle writes them, the statistics name the first agency of the list as
    the largest, and the smallest agency has the size of the last one. *)
Theorem largest_agency_is_listed_first e s doc a rest :
  data_file (fs s) = Some (Whole doc) ->
  agencies doc = a :: rest ->
  is_nan (regulation_size_mb a) = false ->
  StronglySorted
    (fun x y => (regulation_size_mb y <=? regulation_size_mb x)%float = true)
    (agencies doc) ->
  exists st small,
    get_statistics e s = (Ok st, s)
    /\ largest_agency st = Some a
    /\ smallest_agency st = Some small
    /\ In small (agencies doc)
    /\ (regulation_size_mb small =? regulation_size_mb (last rest a))%float = true.
Proof.
  intros Hfile Hags Hnum Hsorted. rewrite Hags in Hsorted.
  inversion Hsorted as [| ? ? Hrest Hhead]; subst.
  assert (Hnums : Forall (fun x => is_nan (regulation_size_mb x) = false) (a :: rest)).
  { constructor; [exact Hnum |]. eapply Forall_impl; [| exact Hhead].
    intros x Hx. now apply leb_numbers in Hx. }
  unfold get_statistics, load_data, get_fs, bind, ret. rewrite Hfile, Hags.
  unfold lift, float_truediv.
  rewrite of_int_nonzero by (cbn [List.length]; lia).
  do 2 eexists. split; [reflexivity |].
  cbn [largest_agency smallest_agency].
  split; [now rewrite max_from_head |]. split; [reflexivity |].
  pose proof (min_from_In regulation_size_mb rest a) as Hin.
  split; [exact Hin |].
  rewrite eqb_leb. apply andb_true_intro. split.
  - apply min_from_least; [exact Hnums | apply last_In].
  - destruct (sorted_last _ rest a _ Hsorted Hin) as [-> | H]; [| exact H].
    apply leb_refl. apply (proj1 (Forall_forall _ _) Hnums), last_In.
Qed.

Lemma largest_agency_is_listed_first_witness :
  let record c size :=
    {| name := c; code := c; regulation_size_mb := size; titles := [];
       last_updated := 0 |} in
  let doc := {| agencies := [record "DOD"%string 123.5%float;
                             record "EPA"%string 45.2%float];
                total_agencies := 2; total_size_mb := 168.7%float;
                last_sync := 0; fetch_duration_seconds := 1.5%float |} in
  let s := {| fs := {| data_file := Some (Whole doc); temp_file := None |};
              ticks := 0 |} in
  exists st,
    get_statistics Sample.healthy s = (Ok st, s)
    /\ option_map code (largest_agency st) = Some "DOD"%string.
Proof.
  intros record doc s.
  destruct (largest_agency_is_listed_first Sample.healthy s doc
              (record "DOD"%string 123.5%float) [record "EPA"%string 45.2%float])
    as (st & small & Hrun & Hbig & _);
    [reflexivity | reflexivity | reflexivity | repeat constructor |].
  exists st. split; [exact Hrun |]. now rewrite Hbig.
Defined.

(** ** Lookup by code *)

Lemma upper_digits d :
  upper (DecimalString.NilEmpty.string_of_uint d)
  = DecimalString.NilEmpty.string_of_uint d.
Proof.
  induction d as [| d IH | d IH | d IH | d IH | d IH | d IH | d IH | d IH | d IH | d IH];
    cbn [DecimalString.NilEmpty.string_of_uint upper];
    [reflexivity | f_equal; exact IH ..].
Qed.

Lemma ascii_digits d :
  is_ascii (DecimalString.NilEmpty.string_of_uint d) = true.
Proof.
  induction d as [| d IH | d IH | d IH | d IH | d IH | d IH | d IH | d IH | d IH | d IH];
    cbn [DecimalString.NilEmpty.string_of_uint is_ascii];
    [reflexivity | rewrite IH; reflexivity ..].
Qed.

Lemma ascii_str n : is_ascii (str n) = true.
Proof.
  unfold str, DecimalString.NilZero.string_of_int, DecimalString.NilZero.string_of_uint.
  destruct (Z.to_int n) as [d | d]; destruct d; cbn [is_ascii];
    rewrite ?ascii_digits; reflexivity.
Qed.

Lemma upper_str n : upper (str n) = str n.
Proof.
  unfold str, DecimalString.NilZero.string_of_int, DecimalString.NilZero.string_of_uint.
  destruct (Z.to_int n) as [d | d]; destruct d; cbn [upper];
    rewrite ?upper_digits; reflexivity.
Qed.

Lemma upper_append a b : upper (a ++ b) = (upper a ++ upper b)%string.
Proof. induction a; simpl; congruence. Qed.

(** Every code the aggregator can assign is in upper case already. *)
Lemma upper_code_of tc : upper (code_of tc) = code_of tc.
Proof.
  unfold code_of, agency_of_title.
  destruct (lookup_title (title_number tc) title_agency_map) as [i |] eqn:E.
  - apply lookup_title_In in E. revert i E. apply Forall_forall.
    unfold title_agency_map, info. cbn [map snd].
    repeat constructor.
  - cbn [fallback_info info_code]. rewrite upper_append, upper_str. reflexivity.
Qed.

Lemma ascii_code_of tc : is_ascii (code_of tc) = true.
Proof.
  unfold code_of, agency_of_title.
  destruct (lookup_title (title_number tc) title_agency_map) as [i |] eqn:E.
  - apply lookup_title_In in E. revert i E. apply Forall_forall.
    unfold title_agency_map, info. cbn [map snd].
    repeat constructor.
  - cbn [fallback_info info_code append is_ascii]. rewrite ascii_str. reflexivity.
Qed.

Lemma find_the_one {A} (f : A -> bool) l r :
  In r l -> f r = true -> (forall a, In a l -> f a = true -> a = r) ->
  find f l = Some r.
Proof.
  induction l as [| x l IH]; simpl; [tauto |].
  intros Hin Hr Huniq. destruct (f x) eqn:Hx.
  - f_equal. apply Huniq; auto.
  - destruct Hin as [-> | Hin]; [congruence |]. apply IH; auto.
Qed.

Lemma find_none {A} (f : A -> bool) l :
  (forall a, In a l -> f a = false) -> find f l = None.
Proof.
  induction l as [| x l IH]; simpl; [reflexivity |].
  intros H. rewrite (H x) by auto. apply IH. auto.
Qed.

(** X14.  The codes of the agencies the aggregator returns are upper-case ASCII.
    On a document all of whose codes are upper-case ASCII and pairwise
    distinct, the lookup by code ignores the case of an ASCII request: it
    returns the agency whose code is the request in upper case, and answers
    404 when there is none.  Of [str.upper()] this uses what it does to
    ASCII text only. *)
Theorem lookup_ignores_case str_upper :
  upper_on_ascii str_upper ->
  (forall tcs e s out,
     fst (map_titles_to_agencies tcs e s) = Ok out ->
     Forall (fun a => upper (code a) = code a /\ is_ascii (code a) = true) out)
  /\ (forall e s doc q,
        data_file (fs s) = Some (Whole doc) ->
        NoDup (map code (agencies doc)) ->
        Forall (fun a => upper (code a) = code a /\ is_ascii (code a) = true)
               (agencies doc) ->
        is_ascii q = true ->
        (forall r, In r (agencies doc) -> code r = upper q ->
                   get_agency str_upper q e s = (Ok r, s))
        /\ ((forall a, In a (agencies doc) -> code a <> upper q) ->
            get_agency str_upper q e s = (Raise (HTTPException 404), s))).
Proof.
  intros Hupper. split.
  - intros tcs e s out Hrun.
    destruct (aggregator_output tcs e s) as (out' & Hrun' & _ & _ & Hrec & _).
    assert (out' = out) as -> by congruence.
    apply Forall_forall. intros a Ha. destruct (Hrec a Ha) as (Hc & _).
    apply in_map_iff in Hc as (tc & <- & _).
    split; [apply upper_code_of | apply ascii_code_of].
  - intros e s doc q Hfile Hnd Hup Hq.
    assert (Hstored : forall a, In a (agencies doc) -> str_upper (code a) = code a).
    { intros a Ha. destruct (proj1 (Forall_forall _ _) Hup a Ha) as [Hfix Hascii].
      now rewrite (Hupper _ Hascii). }
    unfold get_agency, load_data, get_fs, bind, ret, raise. rewrite Hfile.
    rewrite (Hupper q Hq).
    split.
    + intros r Hin Hcode.
      rewrite (find_the_one _ (agencies doc) r Hin); [reflexivity | |].
      * rewrite (Hstored r Hin), Hcode. apply String.eqb_refl.
      * intros a Ha Heq. apply String.eqb_eq in Heq.
        rewrite (Hstored a Ha) in Heq.
        apply (NoDup_map_eq code (agencies doc) a r Hnd Ha Hin). congruence.
    + intros Hnone. rewrite find_none; [reflexivity |].
      intros a Ha. apply String.eqb_neq.
      rewrite (Hstored a Ha). now apply Hnone.
Qed.

Lemma lookup_ignores_case_witness :
  let record c size :=
    {| name := c; code := c; regulation_size_mb := size; titles := [];
       last_updated := 0 |} in
  let doc := {| agencies := [record "DOD"%string 123.5%float;
                             record "EPA"%string 45.2%float];
                total_agencies := 2; total_size_mb := 168.7%float;
                last_sync := 0; fetch_duration_seconds := 1.5%float |} in
  let s := {| fs := {| data_file := Some (Whole doc); temp_file := None |};
              ticks := 0 |} in
  upper_on_ascii upper
  /\ get_agency upper "epa" Sample.healthy s
     = (Ok (record "EPA"%string 45.2%float), s)
  /\ get_agency upper "Nasa" Sample.healthy s = (Raise (HTTPException 404), s).
Proof.
  intros record doc s.
  assert (Hupper : upper_on_ascii upper) by (intros t _; reflexivity).
  split; [exact Hupper |].
  destruct (lookup_ignores_case upper Hupper) as [_ H].
  destruct (H Sample.healthy s doc "epa"%string) as [Hfound _];
    [reflexivity | repeat constructor; cbn; intuition discriminate
    | repeat constructor | reflexivity |].
  destruct (H Sample.healthy s doc "Nasa"%string) as [_ Hmissing];
    [reflexivity | repeat constructor; cbn; intuition discriminate
    | repeat constructor | reflexivity |].
  split.
  - apply Hfound; [cbn; auto | reflexivity].
  - apply Hmissing. intros a [<- | [<- | []]]; discriminate.
Defined.

(** ** The scheduler and the start-up *)

(** X15.  However often [start_scheduler] is called, one scheduler runs, and a
    second call changes nothing (no second scheduler, no second job).
    Started from a state without a running scheduler it holds exactly the
    daily job, at 2:00.  [stop_scheduler] after it leaves no scheduler, so
    the status shows not running and no jobs, and stopping again changes
    nothing. *)
Theorem scheduler_lifecycle next_run next_run' global :
  let started := start_scheduler next_run global in
  (exists sch, started = Some sch /\ running sch = true)
  /\ start_scheduler next_run' started = started
  /\ status_running (get_scheduler_status started) = true
  /\ (status_running (get_scheduler_status global) = false ->
      status_jobs (get_scheduler_status started) = [daily_data_update next_run])
  /\ stop_scheduler started = None
  /\ get_scheduler_status (stop_scheduler started)
     = {| status_running := false; status_jobs := [] |}
  /\ stop_scheduler (stop_scheduler started) = stop_scheduler started.
Proof.
  unfold start_scheduler, stop_scheduler, get_scheduler_status.
  destruct global as [[[] js] |]; cbn; repeat split; eauto; discriminate.
Qed.

Lemma scheduler_lifecycle_witness :
  status_jobs (get_scheduler_status (start_scheduler 7 None))
  = [daily_data_update 7].
Proof.
  destruct (scheduler_lifecycle 7 9 None) as (_ & _ & _ & Hjobs & _).
  apply Hjobs. reflexivity.
Defined.

(** X16.  Whatever the fetch meets, the start-up completes, with a running
    scheduler.  It runs a fetch cycle exactly when nothing is at the canonical path: with a
    file there, readable or not, the state is left as it is, so that after
    a start-up on a file that does not parse the data accessors still answer
    503. *)
Theorem startup_fetches_only_without_a_file next_run global e s :
  (forall f, data_file (fs s) = Some f ->
     startup next_run global e s = (Ok (start_scheduler next_run global), s))
  /\ (data_file (fs s) = None ->
      startup next_run global e s
      = (Ok (start_scheduler next_run global), snd (fetch_and_update_data e s)))
  /\ (forall doc, data_file (fs s) = Some (Truncated doc) ->
        fst (get_agencies e (snd (startup next_run global e s)))
        = Raise (HTTPException 503)).
Proof.
  assert (Hfile : forall f, data_file (fs s) = Some f ->
            startup next_run global e s = (Ok (start_scheduler next_run global), s)).
  { intros f Hf. unfold startup, data_exists, get_fs, bind, ret. now rewrite Hf. }
  split; [exact Hfile |]. split.
  - intros Hnone. unfold startup, data_exists, get_fs, bind, ret, try_except.
    rewrite Hnone.
    destruct (cycle_cases e s)
      as [(s' & -> & _) | (titles & tcs & s2 & H1 & H2 & H3 & H4)]; [reflexivity |].
    now rewrite (cycle_run e s titles tcs s2 H1 H2 H3 H4).
  - intros doc Hdoc. rewrite (Hfile _ Hdoc). cbn [snd].
    unfold get_agencies, load_data, get_fs, bind, ret, raise. now rewrite Hdoc.
Qed.

Lemma startup_fetches_only_without_a_file_witness :
  let doc := {| agencies := []; total_agencies := 0; total_size_mb := 0.0%float;
                last_sync := 0; fetch_duration_seconds := 0.0%float |} in
  let torn := {| fs := {| data_file := Some (Truncated doc); temp_file := None |};
                 ticks := 0 |} in
  startup 7 None Sample.healthy torn = (Ok (start_scheduler 7 None), torn)
  /\ startup 7 None Sample.healthy Sample.fresh
     = (Ok (start_scheduler 7 None),
        snd (fetch_and_update_data Sample.healthy Sample.fresh))
  /\ fst (get_agencies Sample.healthy (snd (startup 7 None Sample.healthy torn)))
     = Raise (HTTPException 503).
Proof.
  intros doc torn.
  destruct (startup_fetches_only_without_a_file 7 None Sample.healthy torn)
    as (Hfile & _ & Htorn).
  destruct (startup_fetches_only_without_a_file 7 None Sample.healthy Sample.fresh)
    as (_ & Hnone & _).
  split; [apply (Hfile (Truncated doc)); reflexivity |].
  split; [apply Hnone; reflexivity | apply (Htorn doc); reflexivity].
Defined.

(** From an empty disk, with the remote API answering, the start-up leaves a
    snapshot that the accessors serve. *)
Example startup_on_an_empty_disk :
  let after := snd (startup 0 None Sample.healthy Sample.fresh) in
  exists doc h,
    get_agencies Sample.healthy after = (Ok doc, after)
    /\ map code (agencies doc) = ["EPA"; "DOD"]%string
    /\ fst (health_check Sample.healthy after) = Ok h
    /\ health_status h = "healthy"%string.
Proof.
  intros after. do 2 eexists.
  split; [vm_compute; reflexivity |].
  split; [reflexivity |].
  split; [vm_compute; reflexivity | reflexivity].
Qed.

(** X11.  A cycle that publishes writes its agencies from the largest to the
    smallest size (the sizes it fetches are numbers, never NaN), so the
    statistics served next name the first agency of the document as the
    largest. *)
Theorem published_agencies_are_sorted e s listing tcs s2 :
  fetch_title_structure e (tick s) = (Ok listing, tick s) ->
  listing <> [] ->
  fetch_all_title_contents listing e (tick s) = (Ok tcs, s2) ->
  tcs <> [] ->
  publish_fails (faults e) = false ->
  let after := snd (fetch_and_update_data e s) in
  exists doc st,
    fs after = published doc
    /\ StronglySorted
         (fun a b => (regulation_size_mb b <=? regulation_size_mb a)%float = true)
         (agencies doc)
    /\ get_statistics e after = (Ok st, after)
    /\ largest_agency st = hd_error (agencies doc).
Proof.
  intros Hlist Hne Hall Hne' Hok after. subst after.
  rewrite (cycle_run e s listing tcs s2 Hlist Hne Hall Hne'), Hok. cbn [snd fs].
  apply fetch_all_title_contents_spec in Hall as [_ Hsizes].
  assert (Hpos : Forall (fun tc => (0 <=? size_mb tc)%float = true) tcs)
    by (eapply Forall_impl; [| exact Hsizes]; now intros tc [H _]).
  set (doc := snapshot_of_cycle e (ticks s) (ticks s2) tcs).
  set (l := stamped (clock e) (ticks s2) (aggregate tcs)).
  assert (Hnum : Forall (fun r => is_nan (regulation_size_mb r) = false) l).
  { unfold l. rewrite aggregate_spec.
    eapply Forall_impl; [| apply (stamped_nonneg (clock e) tcs (ticks s2) Hpos)].
    intros r [H _]. now apply leb_numbers in H. }
  assert (Hsorted : StronglySorted
            (fun a b => (regulation_size_mb b <=? regulation_size_mb a)%float = true)
            (agencies doc))
    by (apply sort_reverse_sorted, Hnum).
  exists doc. 
  unfold get_statistics, load_data, get_fs, bind, ret.
  cbn [fs published data_file].
  destruct (agencies doc) as [| a rest] eqn:Hags.
  - eexists. split; [reflexivity |]. split; [exact Hsorted |]. split; reflexivity.
  - unfold lift, float_truediv.
    rewrite of_int_nonzero by (cbn [List.length]; lia).
    eexists. split; [reflexivity |]. split; [exact Hsorted |].
    split; [reflexivity |]. cbn [largest_agency hd_error]. f_equal.
    apply max_from_head. now inversion Hsorted.
Qed.

Lemma published_agencies_are_sorted_witness :
  let after := snd (fetch_and_update_data Sample.healthy Sample.fresh) in
  exists doc st,
    fs after = published doc
    /\ get_statistics Sample.healthy after = (Ok st, after)
    /\ largest_agency st = hd_error (agencies doc).
Proof.
  intros after. subst after.
  destruct (fetch_all_title_contents_run [Sample.epa; Sample.dod] Sample.healthy
              (tick Sample.fresh) eq_refl) as (tcs & s2 & Hall & _).
  assert (Hne : tcs <> []).
  { vm_compute in Hall. injection Hall as <- _. discriminate. }
  destruct (published_agencies_are_sorted Sample.healthy Sample.fresh
              [Sample.epa; Sample.dod] tcs s2)
    as (doc & st & Hfs & _ & Hstats & Hbig);
    [reflexivity | discriminate | exact Hall | exact Hne | reflexivity |].
  exists doc, st. auto.
Defined.
